(** * Text dylib (.tbd) parsing: a model of [macho/tapi.cc]

    The functions of [tapi.cc] are embedded as Rocq functions with the
    names they have in the source.  A [YamlNode] is the three-way variant
    of the source; the mapping variant and the lookup table of [squash]
    are finite maps keyed by strings.  The recursive walk of [squash] is
    not structurally recursive (it follows library names through the
    lookup table), so it carries a bound on the recursion depth. *)

From Stdlib Require Import Relations Ascii String DecimalString ZArith.
From stdpp Require Import gmap strings list fin_maps.

(** ** Data model *)

(** [YamlNode::data] is
    [std::variant<string_view, vector<YamlNode>, map<string_view, YamlNode>>]. *)
#[warnings="-register-all"]
Inductive YamlNode : Type :=
| YamlString (s : string)
| YamlVector (vec : list YamlNode)
| YamlMap (m : gmap string YamlNode).

(** Modelled from the spec: the declaration of [TextDylib] lives in
    [mold.h], which is not part of the sources at hand.  The four fields
    are the ones [tapi.cc] reads and writes.  [install_name] is used by
    [squash] as a key of a map keyed by [std::string_view], so it is a
    string whose default value is the empty string. *)
Record TextDylib : Type := mkTextDylib {
  install_name : string;
  reexported_libs : list string;
  exports : list string;
  weak_exports : list string
}.

Global Instance TextDylib_eq_dec : EqDecision TextDylib.
Proof. solve_decision. Defined.

Definition empty_dylib : TextDylib := mkTextDylib "" [] [] [].

Definition set_install_name (tbd : TextDylib) (v : string) : TextDylib :=
  mkTextDylib v (reexported_libs tbd) (exports tbd) (weak_exports tbd).

Definition append_reexported_libs (tbd : TextDylib) (l : list string) : TextDylib :=
  mkTextDylib (install_name tbd) (reexported_libs tbd ++ l) (exports tbd) (weak_exports tbd).

Definition append_exports (tbd : TextDylib) (l : list string) : TextDylib :=
  mkTextDylib (install_name tbd) (reexported_libs tbd) (exports tbd ++ l) (weak_exports tbd).

Definition append_weak_exports (tbd : TextDylib) (l : list string) : TextDylib :=
  mkTextDylib (install_name tbd) (reexported_libs tbd) (exports tbd) (weak_exports tbd ++ l).

Definition set_reexported_libs (tbd : TextDylib) (l : list string) : TextDylib :=
  mkTextDylib (install_name tbd) l (exports tbd) (weak_exports tbd).

(** ** Node query helpers *)

Definition get_vector (node : YamlNode) (key : string) : list YamlNode :=
  match node with
  | YamlMap m =>
      match m !! key with
      | Some (YamlVector vec) => vec
      | _ => []
      end
  | _ => []
  end.

Definition get_string_vector (node : YamlNode) (key : string) : list string :=
  fold_left
    (fun vec mem => match mem with YamlString val => vec ++ [val] | _ => vec end)
    (get_vector node key) [].

Definition get_string (node : YamlNode) (key : string) : option string :=
  match node with
  | YamlMap m =>
      match m !! key with
      | Some (YamlString str) => Some str
      | _ => None
      end
  | _ => None
  end.

Fixpoint contains (vec : list YamlNode) (key : string) : bool :=
  match vec with
  | [] => false
  | mem :: rest =>
      match mem with
      | YamlString val => if String.eqb val key then true else contains rest key
      | _ => contains rest key
      end
  end.

(** ** Descriptor extraction *)

(** The body of the innermost [if] of [to_tbd]: what one member of
    ["exports"] or ["reexports"] that applies to [arch] adds to [tbd]. *)
Definition add_member_symbols (tbd : TextDylib) (mem : YamlNode) : TextDylib :=
  let tbd := append_exports tbd (get_string_vector mem "symbols") in
  let tbd := append_weak_exports tbd (get_string_vector mem "weak-symbols") in
  let tbd :=
    fold_left
      (fun tbd s =>
         let tbd := append_exports tbd ["_OBJC_CLASS_$_" +:+ s] in
         append_exports tbd ["_OBJC_METACLASS_$_" +:+ s])
      (get_string_vector mem "objc-classes") tbd in
  let tbd :=
    fold_left (fun tbd s => append_exports tbd ["_OBJC_EHTYPE_$_" +:+ s])
      (get_string_vector mem "objc-eh-types") tbd in
  fold_left (fun tbd s => append_exports tbd ["_OBJC_IVAR_$_" +:+ s])
    (get_string_vector mem "objc-ivars") tbd.

Definition to_tbd (node : YamlNode) (arch : string) : option TextDylib :=
  if negb (contains (get_vector node "targets") arch) then None
  else
    let tbd := empty_dylib in
    let tbd :=
      match get_string node "install-name" with
      | Some val => set_install_name tbd val
      | None => tbd
      end in
    let tbd :=
      fold_left
        (fun tbd mem =>
           if contains (get_vector mem "targets") arch
           then append_reexported_libs tbd (get_string_vector mem "libraries")
           else tbd)
        (get_vector node "reexported-libraries") tbd in
    let tbd :=
      fold_left
        (fun tbd key =>
           fold_left
             (fun tbd mem =>
                if contains (get_vector mem "targets") arch
                then add_member_symbols tbd mem
                else tbd)
             (get_vector node key) tbd)
        ["exports"; "reexports"] tbd in
    Some tbd.

(** ** Merge of the descriptors of one file *)

(** How a call ends.  [Fatal msg] is [Fatal(ctx) << msg]: the diagnostic is
    printed and the process exits.  [Undefined] is an element access
    outside the bounds of a span or of the file contents.  [Diverges] is
    returned when the recursion of the walk is deeper than the depth the
    caller allows. *)
Inductive outcome (A : Type) : Type :=
| Returns (a : A)
| Fatal (msg : string)
| Undefined
| Diverges.

Arguments Returns {A} a.
Arguments Fatal {A} msg.
Arguments Undefined {A}.
Arguments Diverges {A}.

(** The variables the lambda [handle_reexported_libs] captures by
    reference and writes to: [main] and [external_libs]. *)
Record walk : Type := mkWalk {
  walk_main : TextDylib;
  external_libs : list string
}.

(** [append(main.exports, child.exports); append(main.weak_exports, child.weak_exports)] *)
Definition absorb (st : walk) (child : TextDylib) : walk :=
  mkWalk
    (append_weak_exports (append_exports (walk_main st) (exports child))
       (weak_exports child))
    (external_libs st).

(** [external_libs.push_back(lib)] *)
Definition push_external (st : walk) (lib : string) : walk :=
  mkWalk (walk_main st) (external_libs st ++ [lib]).

(** A [for] loop over [l] whose body may fail to come back. *)
Fixpoint for_each {S A : Type} (body : S → A → option S) (l : list A) (st : S)
  : option S :=
  match l with
  | [] => Some st
  | x :: l' =>
      match body st x with
      | Some st' => for_each body l' st'
      | None => None
      end
  end.

(** The recursive lambda of [squash].  [depth] bounds the nesting of the
    recursive calls; [None] means the bound was reached. *)
Fixpoint handle_reexported_libs (depth : nat) (map : gmap string TextDylib)
    (libs : list string) (st : walk) : option walk :=
  match depth with
  | O => None
  | S depth' =>
      for_each
        (fun st lib =>
           match map !! lib with
           | Some child =>
               handle_reexported_libs depth' map (reexported_libs child)
                 (absorb st child)
           | None => Some (push_external st lib)
           end)
        libs st
  end.

(** The table built by the first loop of [squash]:
    [map[tbd.install_name] = std::move(tbd)] for each of [tbds.subspan(1)]. *)
Definition lookup_table (rest : list TextDylib) : gmap string TextDylib :=
  fold_left (fun map tbd => <[install_name tbd := tbd]> map) rest ∅.

Definition squash (depth : nat) (tbds : list TextDylib) : outcome TextDylib :=
  match tbds with
  | [] => Undefined
  | main :: rest =>
      let map := lookup_table rest in
      match handle_reexported_libs depth map (reexported_libs main)
              (mkWalk main []) with
      | Some st => Returns (set_reexported_libs (walk_main st) (external_libs st))
      | None => Diverges
      end
  end.

(** ** File-level driver *)

(** Modelled from the spec: [YamlError] and [parse_yaml] are declared
    outside [tapi.cc].  An error carries a message and the byte offset of
    the failure in the contents. *)
Record YamlError : Type := mkYamlError {
  msg : string;
  pos : nat
}.

Definition newline : ascii := "010"%char.

(** [std::count(contents.begin(), contents.begin() + n, value)]; [None]
    when the range runs past the end of [contents]. *)
Fixpoint count (contents : string) (n : nat) (value : ascii) : option Z :=
  match n with
  | O => Some 0%Z
  | S n' =>
      match contents with
      | EmptyString => None
      | String c rest =>
          (fun k => if Ascii.eqb c value then (k + 1)%Z else k)
            <$> count rest n' value
      end
  end.

(** [operator<<] on an [i64]: the decimal numeral.  The count of newlines
    in a mapped file stays far below [2^63], so no wrap-around occurs in
    [lineno + 1]. *)
Definition show_i64 (z : Z) : string := NilZero.string_of_int (Z.to_int z).

Section Driver.

(** The YAML parser, defined elsewhere in the repository. *)
Variable parse_yaml : string → list YamlNode + YamlError.

Definition parse (depth : nat) (contents name arch : string)
  : outcome TextDylib :=
  match parse_yaml contents with
  | inr err =>
      match count contents (pos err) newline with
      | Some lineno =>
          Fatal (name +:+ ":" +:+ show_i64 (lineno + 1) +:+
                 ": YAML parse error: " +:+ msg err)
      | None => Undefined
      end
  | inl nodes =>
      match nodes with
      | [] => Fatal (name +:+ ": malformed TBD file")
      | _ =>
          let vec :=
            fold_left
              (fun vec node =>
                 match to_tbd node arch with
                 | Some dylib => vec ++ [dylib]
                 | None => vec
                 end)
              nodes [] in
          squash depth vec
      end
  end.

Definition parse_tbd_arm64 (depth : nat) (contents name : string) :=
  parse depth contents name "arm64-macos".

Definition parse_tbd_x86_64 (depth : nat) (contents name : string) :=
  parse depth contents name "x86_64-macos".

End Driver.

(** ** Vocabulary of the properties *)

(** The export names derived from the names of ["objc-classes"]. *)
Definition objc_class_symbols (classes : list string) : list string :=
  flat_map (fun s => ["_OBJC_CLASS_$_" +:+ s; "_OBJC_METACLASS_$_" +:+ s]) classes.

(** Everything one applicable member adds to [exports]. *)
Definition member_exports (mem : YamlNode) : list string :=
  get_string_vector mem "symbols"
  ++ objc_class_symbols (get_string_vector mem "objc-classes")
  ++ map (String.append "_OBJC_EHTYPE_$_") (get_string_vector mem "objc-eh-types")
  ++ map (String.append "_OBJC_IVAR_$_") (get_string_vector mem "objc-ivars").

(** The members of a sequence that apply to [arch]. *)
Definition applicable (arch : string) (members : list YamlNode) : list YamlNode :=
  List.filter (fun mem => contains (get_vector mem "targets") arch) members.

Definition members_exports (arch : string) (members : list YamlNode) : list string :=
  flat_map member_exports (applicable arch members).

Definition members_weak_exports (arch : string) (members : list YamlNode) : list string :=
  flat_map (fun mem => get_string_vector mem "weak-symbols") (applicable arch members).

(** The re-export graph of the descriptors of one file: [d] re-exports
    [d'] when the install name of [d'] is listed in [reexported_libs d].
    A descriptor that lists its own install name has an edge to itself. *)
Definition reexports (tbds : list TextDylib) (d d' : TextDylib) : Prop :=
  d ∈ tbds ∧ d' ∈ tbds ∧ install_name d' ∈ reexported_libs d.

Definition acyclic (tbds : list TextDylib) : Prop :=
  ∀ d, ¬ clos_trans TextDylib (reexports tbds) d d.

Definition mutual_reexport (tbds : list TextDylib) : Prop :=
  ∃ d d', d ≠ d' ∧ reexports tbds d d' ∧ reexports tbds d' d.

(** One link of a chain of same-file re-exports: a name listed by [d]
    that the lookup table resolves to [d']. *)
Definition table_edge (map : gmap string TextDylib) (d d' : TextDylib) : Prop :=
  ∃ lib, lib ∈ reexported_libs d ∧ map !! lib = Some d'.

(** [resolved map libs lib child]: starting from the names [libs], a chain
    of re-exports, each link resolved by the lookup table, ends with the
    name [lib], which the table resolves to [child]. *)
Inductive resolved (map : gmap string TextDylib)
  : list string → string → TextDylib → Prop :=
| resolved_here libs lib child :
    lib ∈ libs → map !! lib = Some child → resolved map libs lib child
| resolved_below libs via mid lib child :
    via ∈ libs → map !! via = Some mid →
    resolved map (reexported_libs mid) lib child →
    resolved map libs lib child.

(** [walk_path map libs p]: the descriptors [p] are entered one inside the
    other by nested calls of the walk that starts on [libs]. *)
Inductive walk_path (map : gmap string TextDylib)
  : list string → list TextDylib → Prop :=
| walk_path_nil libs : walk_path map libs []
| walk_path_cons libs lib child p :
    lib ∈ libs → map !! lib = Some child →
    walk_path map (reexported_libs child) p →
    walk_path map libs (child :: p).

(** The state of the walk only grows: [main] keeps its install name and
    its own list of re-exports, and all three accumulated sequences are
    extended at the end. *)
Definition extends (st st' : walk) : Prop :=
  install_name (walk_main st') = install_name (walk_main st)
  ∧ reexported_libs (walk_main st') = reexported_libs (walk_main st)
  ∧ exports (walk_main st) `prefix_of` exports (walk_main st')
  ∧ weak_exports (walk_main st) `prefix_of` weak_exports (walk_main st')
  ∧ external_libs st `prefix_of` external_libs st'.

(** The number of newline bytes among the first [p] bytes of [contents]. *)
Definition newlines_before (contents : string) (p : nat) : nat :=
  length (List.filter (fun c => Ascii.eqb c newline) (take p (list_ascii_of_string contents))).

(** Every name the walk has added to [external_libs] is one the lookup
    table does not hold. *)
Definition only_unresolved (map : gmap string TextDylib) (st st' : walk) : Prop :=
  ∀ lib, lib ∈ external_libs st' → lib ∈ external_libs st ∨ map !! lib = None.

(** A check that implies [acyclic]: [rank] grows along every edge. *)
Definition ranked (rank : TextDylib → nat) (tbds : list TextDylib) : bool :=
  forallb
    (fun d =>
       forallb
         (fun d' =>
            bool_decide (install_name d' ∈ reexported_libs d → rank d < rank d'))
         tbds)
    tbds.

(** ** Sample inputs *)

Definition yaml_map (entries : list (string * YamlNode)) : YamlNode :=
  YamlMap (list_to_map entries).

Definition yaml_strings (l : list string) : YamlNode :=
  YamlVector (YamlString <$> l).

(** A document for both architectures with one group of exports. *)
Definition sample_document : YamlNode :=
  yaml_map
    [("targets", yaml_strings ["x86_64-macos"; "arm64-macos"]);
     ("install-name", YamlString "/usr/lib/libfoo.dylib");
     ("reexported-libraries",
      YamlVector
        [yaml_map [("targets", yaml_strings ["arm64-macos"]);
                   ("libraries", yaml_strings ["/usr/lib/libbar.dylib"])]]);
     ("exports",
      YamlVector
        [yaml_map [("targets", yaml_strings ["arm64-macos"]);
                   ("symbols", yaml_strings ["_foo"; "_bar"]);
                   ("weak-symbols", yaml_strings ["_weak"]);
                   ("objc-classes", yaml_strings ["Foo"; "Bar"]);
                   ("objc-ivars", yaml_strings ["Foo.x"])]])].

Definition sample_member : YamlNode :=
  yaml_map [("targets", yaml_strings ["arm64-macos"]);
            ("symbols", yaml_strings ["_foo"; "_bar"]);
            ("weak-symbols", yaml_strings ["_weak"]);
            ("objc-classes", yaml_strings ["Foo"; "Bar"]);
            ("objc-ivars", yaml_strings ["Foo.x"])].

(** A document for x86_64 only. *)
Definition x86_document : YamlNode :=
  yaml_map
    [("targets", yaml_strings ["x86_64-macos"]);
     ("install-name", YamlString "/usr/lib/libfoo.dylib");
     ("exports",
      YamlVector
        [yaml_map [("targets", yaml_strings ["x86_64-macos"]);
                   ("symbols", yaml_strings ["_foo"])]])].

(** An acyclic file: A re-exports B and an outside library, B re-exports C. *)
Definition lib_a : TextDylib := mkTextDylib "A" ["B"; "/usr/lib/libX.dylib"] ["_a"] [].
Definition lib_b : TextDylib := mkTextDylib "B" ["C"] ["_b"] ["_wb"].
Definition lib_c : TextDylib := mkTextDylib "C" [] ["_c"] [].

Definition rank_abc (d : TextDylib) : nat :=
  if bool_decide (install_name d = "A") then 0
  else if bool_decide (install_name d = "B") then 1 else 2.

(** The primary library and its only sibling re-export each other. *)
Definition lib_p : TextDylib := mkTextDylib "P" ["Q"] ["_p"] [].
Definition lib_q : TextDylib := mkTextDylib "Q" ["P"] ["_q"] ["_wq"].

(** Two siblings of the primary library re-export each other. *)
Definition lib_m : TextDylib := mkTextDylib "M" ["Q"] ["_m"] [].
Definition lib_r : TextDylib := mkTextDylib "R" ["Q"] ["_r"] [].
Definition lib_q2 : TextDylib := mkTextDylib "Q" ["R"] ["_q"] [].

(** Parsers with a fixed answer. *)
Definition yaml_documents (nodes : list YamlNode) (contents : string)
  : list YamlNode + YamlError := inl nodes.

Definition yaml_failure (err : YamlError) (contents : string)
  : list YamlNode + YamlError := inr err.

Definition four_lines : string :=
  String "a" (String newline (String "b" (String newline
    (String "c" (String newline (String ":" EmptyString)))))).

(** ** Vocabulary of the further properties *)

(** The scalar a node holds, when it is one. *)
Definition scalar_of (mem : YamlNode) : option string :=
  match mem with
  | YamlString val => Some val
  | _ => None
  end.

(** The keys [to_tbd] looks up at the top level of a document. *)
Definition document_keys : list string :=
  ["targets"; "install-name"; "reexported-libraries"; "exports"; "reexports"].

(** The library names listed by the members of ["reexported-libraries"]
    that apply to [arch]. *)
Definition members_libraries (arch : string) (members : list YamlNode) : list string :=
  flat_map (fun mem => get_string_vector mem "libraries") (applicable arch members).

(** The sibling a name stands for: the last one with that install name. *)
Definition resolve (rest : list TextDylib) (lib : string) : option TextDylib :=
  last (List.filter (fun d => String.eqb (install_name d) lib) rest).

(** What one name of [main.reexported_libs] brings when the library it
    resolves to re-exports nothing itself. *)
Definition exports_of (map : gmap string TextDylib) (lib : string) : list string :=
  match map !! lib with
  | Some child => exports child
  | None => []
  end.

Definition weak_exports_of (map : gmap string TextDylib) (lib : string) : list string :=
  match map !! lib with
  | Some child => weak_exports child
  | None => []
  end.

Definition unresolved (map : gmap string TextDylib) (libs : list string) : list string :=
  List.filter (fun lib => bool_decide (map !! lib = None)) libs.

(** Where the content of the walk's state may come from: the state it
    started in, the list it walks, or a descriptor of the table. *)
Definition from_table (map : gmap string TextDylib) (libs : list string)
    (st st' : walk) : Prop :=
  (∀ s, s ∈ exports (walk_main st') →
     s ∈ exports (walk_main st) ∨ ∃ k c, map !! k = Some c ∧ s ∈ exports c)
  ∧ (∀ s, s ∈ weak_exports (walk_main st') →
     s ∈ weak_exports (walk_main st)
     ∨ ∃ k c, map !! k = Some c ∧ s ∈ weak_exports c)
  ∧ (∀ x, x ∈ external_libs st' →
     x ∈ external_libs st ∨ x ∈ libs
     ∨ ∃ k c, map !! k = Some c ∧ x ∈ reexported_libs c).

(** The descriptors [parse] extracts from the documents of a file. *)
Definition extracted (arch : string) (nodes : list YamlNode) : list TextDylib :=
  omap (fun node => to_tbd node arch) nodes.

(** ** Further sample inputs *)

(** A document for both architectures whose only group of exports is
    for x86_64. *)
Definition foreign_members_document : YamlNode :=
  yaml_map
    [("targets", yaml_strings ["x86_64-macos"; "arm64-macos"]);
     ("install-name", YamlString "/usr/lib/libbaz.dylib");
     ("exports",
      YamlVector
        [yaml_map [("targets", yaml_strings ["x86_64-macos"]);
                   ("symbols", yaml_strings ["_baz"])]])].

Definition small_entries : list (string * YamlNode) :=
  [("targets", yaml_strings ["arm64-macos"]);
   ("install-name", YamlString "/usr/lib/libfoo.dylib")].

(** The descriptor of [sample_document] for arm64. *)
Definition sample_descriptor : TextDylib :=
  mkTextDylib "/usr/lib/libfoo.dylib" ["/usr/lib/libbar.dylib"]
    ["_foo"; "_bar"; "_OBJC_CLASS_$_Foo"; "_OBJC_METACLASS_$_Foo";
     "_OBJC_CLASS_$_Bar"; "_OBJC_METACLASS_$_Bar"; "_OBJC_IVAR_$_Foo.x"]
    ["_weak"].

(** ** The order of the walk *)

(** The names a loop over [libs] comes across, when [visit lib] gives
    those met while the body handles [lib]. *)
Fixpoint names_of (visit : string → option (list string)) (libs : list string)
  : option (list string) :=
  match libs with
  | [] => Some []
  | lib :: libs' =>
      match visit lib, names_of visit libs' with
      | Some seen, Some later => Some (seen ++ later)
      | _, _ => None
      end
  end.

(** The names the depth-first walk comes across, one entry for each time
    a name is met, in the order they are met: every name of the list
    walked, a name the table resolves being followed at once by the names
    met in the re-exports of the library it resolves to, a name the table
    does not hold by the next name of the same list. *)
Fixpoint walk_order (depth : nat) (map : gmap string TextDylib)
    (libs : list string) : option (list string) :=
  match depth with
  | O => None
  | S depth' =>
      names_of
        (fun lib =>
           match map !! lib with
           | Some child =>
               match walk_order depth' map (reexported_libs child) with
               | Some below => Some (lib :: below)
               | None => None
               end
           | None => Some [lib]
           end)
        libs
  end.

(** The state of the walk that started in [st], after it met [names]. *)
Definition collected (map : gmap string TextDylib) (st : walk)
    (names : list string) : walk :=
  mkWalk
    (mkTextDylib (install_name (walk_main st)) (reexported_libs (walk_main st))
       (exports (walk_main st) ++ flat_map (exports_of map) names)
       (weak_exports (walk_main st) ++ flat_map (weak_exports_of map) names))
    (external_libs st ++ unresolved map names).

(** ** The lookup table as an unordered container

    [std::unordered_map] does not specify in which order it keeps its
    elements: the order depends on the hash function and on the bucket
    count, and inserting an element may rearrange all of them.  Here the
    table is the sequence of its elements in whatever order the container
    keeps them, and [arrange] is the rearrangement an insertion makes. *)
Module Unordered.

Section Layout.

Variable arrange : list (string * TextDylib) → list (string * TextDylib).

(** [map.find(key)] *)
Fixpoint find (tbl : list (string * TextDylib)) (key : string)
  : option TextDylib :=
  match tbl with
  | [] => None
  | (k, v) :: tbl' => if String.eqb k key then Some v else find tbl' key
  end.

(** Assignment through the reference [map[key]] gives for a key that is
    present: the element stays where it is. *)
Fixpoint overwrite (tbl : list (string * TextDylib)) (key : string)
    (value : TextDylib) : list (string * TextDylib) :=
  match tbl with
  | [] => []
  | (k, v) :: tbl' =>
      if String.eqb k key then (k, value) :: tbl'
      else (k, v) :: overwrite tbl' key value
  end.

(** [map[key] = value]: a present key has its value overwritten; an absent
    key is inserted, after which the container may hold its elements in
    another order. *)
Definition assign (tbl : list (string * TextDylib)) (key : string)
    (value : TextDylib) : list (string * TextDylib) :=
  match find tbl key with
  | Some _ => overwrite tbl key value
  | None => arrange ((key, value) :: tbl)
  end.

Definition lookup_table (rest : list TextDylib) : list (string * TextDylib) :=
  fold_left (fun map tbd => assign map (install_name tbd) tbd) rest [].

Fixpoint handle_reexported_libs (depth : nat) (map : list (string * TextDylib))
    (libs : list string) (st : walk) : option walk :=
  match depth with
  | O => None
  | S depth' =>
      for_each
        (fun st lib =>
           match find map lib with
           | Some child =>
               handle_reexported_libs depth' map (reexported_libs child)
                 (absorb st child)
           | None => Some (push_external st lib)
           end)
        libs st
  end.

Definition squash (depth : nat) (tbds : list TextDylib) : outcome TextDylib :=
  match tbds with
  | [] => Undefined
  | main :: rest =>
      let map := lookup_table rest in
      match handle_reexported_libs depth map (reexported_libs main)
              (mkWalk main []) with
      | Some st => Returns (set_reexported_libs (walk_main st) (external_libs st))
      | None => Diverges
      end
  end.

Variable parse_yaml : string → list YamlNode + YamlError.

Definition parse (depth : nat) (contents name arch : string)
  : outcome TextDylib :=
  match parse_yaml contents with
  | inr err =>
      match count contents (pos err) newline with
      | Some lineno =>
          Fatal (name +:+ ":" +:+ show_i64 (lineno + 1) +:+
                 ": YAML parse error: " +:+ msg err)
      | None => Undefined
      end
  | inl nodes =>
      match nodes with
      | [] => Fatal (name +:+ ": malformed TBD file")
      | _ =>
          let vec :=
            fold_left
              (fun vec node =>
                 match to_tbd node arch with
                 | Some dylib => vec ++ [dylib]
                 | None => vec
                 end)
              nodes [] in
          squash depth vec
      end
  end.

End Layout.

End Unordered.

(** The table, in some order, holds what the finite map holds. *)
Definition agrees (tbl : list (string * TextDylib)) (m : gmap string TextDylib)
  : Prop :=
  NoDup tbl.*1 ∧ ∀ k v, (k, v) ∈ tbl ↔ m !! k = Some v.

(** ** Sample inputs: a file with nested and repeated libraries *)

(** T re-exports K and an outside library; K re-exports another outside
    library. *)
Definition lib_t : TextDylib :=
  mkTextDylib "T" ["K"; "/usr/lib/libext.dylib"] ["_t"] [].
Definition lib_k : TextDylib :=
  mkTextDylib "K" ["/usr/lib/libdeep.dylib"] ["_k"] ["_wk"].

Definition library_document (name : string) (libs symbols : list string)
  : YamlNode :=
  yaml_map
    [("targets", yaml_strings ["arm64-macos"]);
     ("install-name", YamlString name);
     ("reexported-libraries",
      YamlVector [yaml_map [("targets", yaml_strings ["arm64-macos"]);
                            ("libraries", yaml_strings libs)]]);
     ("exports",
      YamlVector [yaml_map [("targets", yaml_strings ["arm64-macos"]);
                            ("symbols", yaml_strings symbols)]])].

(** A file of four documents; two of them have the install name
    ["/usr/lib/libsub.dylib"]. *)
Definition umbrella_file : list YamlNode :=
  [library_document "/usr/lib/libmain.dylib"
     ["/usr/lib/libsub.dylib"; "/usr/lib/libother.dylib"; "/usr/lib/libext.dylib"]
     ["_main"];
   library_document "/usr/lib/libsub.dylib" [] ["_old"];
   library_document "/usr/lib/libother.dylib" ["/usr/lib/libdeep.dylib"] ["_other"];
   library_document "/usr/lib/libsub.dylib" [] ["_sub"]].

(** * Properties *)

(** ** Node query helpers *)

Lemma contains_true (vec : list YamlNode) (key : string) :
  contains vec key = true ↔ YamlString key ∈ vec.
Proof.
  induction vec as [|mem vec IH]; simpl.
  - split; [discriminate | intros H; inversion H].
  - rewrite elem_of_cons. destruct mem as [val| |].
    + destruct (String.eqb_spec val key) as [->|Hne].
      * split; auto.
      * rewrite IH. split; [auto | intros [Heq|Hin]; [congruence | done]].
    + rewrite IH. split; [auto | intros [Heq|Hin]; [discriminate | done]].
    + rewrite IH. split; [auto | intros [Heq|Hin]; [discriminate | done]].
Qed.

Lemma contains_false (vec : list YamlNode) (key : string) :
  contains vec key = false ↔ YamlString key ∉ vec.
Proof.
  rewrite <- contains_true. destruct (contains vec key); split; congruence.
Qed.

(** ** Extraction: what the loops of [to_tbd] add to a descriptor *)

Lemma objc_classes_loop (classes : list string) (tbd : TextDylib) :
  fold_left
    (fun tbd s =>
       let tbd := append_exports tbd ["_OBJC_CLASS_$_" +:+ s] in
       append_exports tbd ["_OBJC_METACLASS_$_" +:+ s])
    classes tbd
  = append_exports tbd (objc_class_symbols classes).
Proof.
  revert tbd. induction classes as [|s classes IH]; intros [n r e w].
  - unfold append_exports; simpl. by rewrite app_nil_r.
  - simpl. rewrite IH. unfold append_exports; simpl.
    by rewrite <- !app_assoc.
Qed.

Lemma prefixed_loop (prefix : string) (names : list string) (tbd : TextDylib) :
  fold_left (fun tbd s => append_exports tbd [prefix +:+ s]) names tbd
  = append_exports tbd (map (String.append prefix) names).
Proof.
  revert tbd. induction names as [|s names IH]; intros [n r e w].
  - unfold append_exports; simpl. by rewrite app_nil_r.
  - simpl. rewrite IH. unfold append_exports; simpl.
    by rewrite <- !app_assoc.
Qed.

Lemma add_member_symbols_spec (tbd : TextDylib) (mem : YamlNode) :
  add_member_symbols tbd mem =
  mkTextDylib (install_name tbd) (reexported_libs tbd)
    (exports tbd ++ member_exports mem)
    (weak_exports tbd ++ get_string_vector mem "weak-symbols").
Proof.
  unfold add_member_symbols, member_exports.
  rewrite objc_classes_loop, !prefixed_loop.
  destruct tbd as [n r e w]; unfold append_exports, append_weak_exports; simpl.
  by rewrite <- !app_assoc.
Qed.

Lemma members_loop (arch : string) (members : list YamlNode) (tbd : TextDylib) :
  fold_left
    (fun tbd mem =>
       if contains (get_vector mem "targets") arch
       then add_member_symbols tbd mem else tbd)
    members tbd
  = mkTextDylib (install_name tbd) (reexported_libs tbd)
      (exports tbd ++ members_exports arch members)
      (weak_exports tbd ++ members_weak_exports arch members).
Proof.
  unfold members_exports, members_weak_exports, applicable.
  revert tbd. induction members as [|mem members IH]; intros tbd.
  - simpl. destruct tbd; simpl. by rewrite !app_nil_r.
  - simpl. destruct (contains (get_vector mem "targets") arch).
    + rewrite IH, add_member_symbols_spec. simpl.
      by rewrite <- !app_assoc.
    + apply IH.
Qed.

Lemma libraries_loop (arch : string) (members : list YamlNode) (tbd : TextDylib) :
  fold_left
    (fun tbd mem =>
       if contains (get_vector mem "targets") arch
       then append_reexported_libs tbd (get_string_vector mem "libraries")
       else tbd)
    members tbd
  = mkTextDylib (install_name tbd)
      (reexported_libs tbd
       ++ flat_map (fun mem => get_string_vector mem "libraries")
            (applicable arch members))
      (exports tbd) (weak_exports tbd).
Proof.
  unfold applicable.
  revert tbd. induction members as [|mem members IH]; intros tbd.
  - simpl. destruct tbd; simpl. by rewrite app_nil_r.
  - simpl. destruct (contains (get_vector mem "targets") arch).
    + rewrite IH. simpl. by rewrite <- app_assoc.
    + apply IH.
Qed.

Lemma to_tbd_exports (node : YamlNode) (arch : string) (tbd : TextDylib) :
  to_tbd node arch = Some tbd →
  exports tbd =
    members_exports arch (get_vector node "exports" ++ get_vector node "reexports")
  ∧ weak_exports tbd =
    members_weak_exports arch (get_vector node "exports" ++ get_vector node "reexports").
Proof.
  unfold to_tbd. destruct (contains (get_vector node "targets") arch); [|discriminate].
  simpl. intros [= <-]. rewrite !members_loop. simpl.
  rewrite libraries_loop. simpl.
  unfold members_exports, members_weak_exports, applicable.
  rewrite !List.filter_app, !flat_map_app.
  destruct (get_string node "install-name"); simpl; by rewrite <- ?app_assoc.
Qed.

Lemma to_tbd_not_targeted (node : YamlNode) (arch : string) :
  contains (get_vector node "targets") arch = false → to_tbd node arch = None.
Proof. intros Hnot. unfold to_tbd. by rewrite Hnot. Qed.

(** C1. A document whose ["targets"] sequence has no scalar equal to the
    architecture identifier yields no descriptor: [to_tbd] returns the
    empty optional, which is its only way not to produce one (it has no
    error outcome). *)
Theorem to_tbd_other_architecture (node : YamlNode) (arch : string) :
  YamlString arch ∉ get_vector node "targets" →
  to_tbd node arch = None.
Proof.
  intros Hnot. by apply to_tbd_not_targeted, contains_false.
Qed.

Lemma to_tbd_other_architecture_witness :
  (YamlString "arm64-ios" ∉ get_vector sample_document "targets")
  ∧ to_tbd sample_document "arm64-ios" = None.
Proof.
  assert (YamlString "arm64-ios" ∉ get_vector sample_document "targets") as Hnot
    by (apply contains_false; vm_compute; reflexivity).
  split; [exact Hnot | exact (to_tbd_other_architecture _ _ Hnot)].
Defined.

(** C2. Let [mem] be a member of ["exports"] or ["reexports"] (in that
    order of traversal) whose ["targets"] contains the architecture, and
    [s] a name of its ["objc-classes"].  The exports of the extracted
    descriptor are: what the earlier members gave, then the ["symbols"] of
    [mem], then the pairs derived from the classes before [s], then exactly
    ["_OBJC_CLASS_$_" s] and ["_OBJC_METACLASS_$_" s] in that order, then
    the names derived from the rest of [mem] and from the later members.
    The ["weak-symbols"] of [mem] are in [weak_exports], after those of the
    earlier members. *)
Theorem objc_classes_derivation (node : YamlNode) (arch : string)
    (tbd : TextDylib) (earlier later : list YamlNode) (mem : YamlNode)
    (c1 c2 : list string) (s : string) :
  to_tbd node arch = Some tbd →
  get_vector node "exports" ++ get_vector node "reexports" = earlier ++ mem :: later →
  YamlString arch ∈ get_vector mem "targets" →
  get_string_vector mem "objc-classes" = c1 ++ s :: c2 →
  exports tbd =
    members_exports arch earlier
    ++ get_string_vector mem "symbols"
    ++ objc_class_symbols c1
    ++ ["_OBJC_CLASS_$_" +:+ s; "_OBJC_METACLASS_$_" +:+ s]
    ++ objc_class_symbols c2
    ++ map (String.append "_OBJC_EHTYPE_$_") (get_string_vector mem "objc-eh-types")
    ++ map (String.append "_OBJC_IVAR_$_") (get_string_vector mem "objc-ivars")
    ++ members_exports arch later
  ∧ weak_exports tbd =
    members_weak_exports arch earlier
    ++ get_string_vector mem "weak-symbols"
    ++ members_weak_exports arch later.
Proof.
  intros Htbd Hsplit Harch Hclasses.
  apply contains_true in Harch.
  destruct (to_tbd_exports _ _ _ Htbd) as [-> ->].
  rewrite Hsplit.
  unfold members_exports, members_weak_exports, applicable.
  rewrite !List.filter_app, !flat_map_app. simpl. rewrite Harch. simpl.
  unfold member_exports. rewrite Hclasses.
  unfold objc_class_symbols. rewrite flat_map_app. simpl.
  by rewrite <- !app_assoc.
Qed.

Lemma objc_classes_derivation_witness :
  ∃ tbd,
    to_tbd sample_document "arm64-macos" = Some tbd
    ∧ exports tbd =
        ["_foo"; "_bar"; "_OBJC_CLASS_$_Foo"; "_OBJC_METACLASS_$_Foo";
         "_OBJC_CLASS_$_Bar"; "_OBJC_METACLASS_$_Bar"; "_OBJC_IVAR_$_Foo.x"]
    ∧ weak_exports tbd = ["_weak"].
Proof.
  eexists. split; [vm_compute; reflexivity|].
  refine (objc_classes_derivation sample_document "arm64-macos" _
            [] [] sample_member ["Foo"] [] "Bar" _ _ _ _).
  - vm_compute; reflexivity.
  - vm_compute; reflexivity.
  - apply contains_true; vm_compute; reflexivity.
  - vm_compute; reflexivity.
Defined.

(** ** The walk of [squash] *)

Section ForEach.

Context {S A : Type} (body : S → A → option S).

Lemma for_each_app (l1 l2 : list A) (st : S) :
  for_each body (l1 ++ l2) st = for_each body l1 st ≫= for_each body l2.
Proof.
  revert st. induction l1 as [|x l1 IH]; intros st; simpl; [done|].
  destruct (body st x); simpl; [apply IH | done].
Qed.

(** An invariant relation kept by every turn of the loop is kept by
    the loop, and a turn taken for a member of the list sits between
    the initial and the final state. *)
Context (R : relation S) `{!PreOrder R}.
Hypothesis body_R : ∀ st x st', body st x = Some st' → R st st'.

Lemma for_each_R (l : list A) (st st' : S) :
  for_each body l st = Some st' → R st st'.
Proof.
  revert st. induction l as [|x l IH]; intros st; simpl.
  - intros [= ->]. reflexivity.
  - destruct (body st x) as [st1|] eqn:Hx; [|discriminate].
    intros H. transitivity st1; eauto.
Qed.

Lemma for_each_turn (l : list A) (x : A) (st st' : S) :
  for_each body l st = Some st' → x ∈ l →
  ∃ st0 st1, R st st0 ∧ body st0 x = Some st1 ∧ R st1 st'.
Proof.
  revert st. induction l as [|y l IH]; intros st; simpl.
  - intros _ Hin. inversion Hin.
  - destruct (body st y) as [st1|] eqn:Hy; [|discriminate].
    intros H Hin. apply elem_of_cons in Hin as [->|Hin].
    + exists st, st1. split; [reflexivity|]. split; [done|].
      by apply for_each_R with l.
    + destruct (IH _ H Hin) as (st0 & st2 & H0 & Hb & H2).
      exists st0, st2. split; [|done]. transitivity st1; eauto.
Qed.

End ForEach.

Global Instance extends_preorder : PreOrder extends.
Proof.
  split.
  - intros st. by repeat split.
  - intros st1 st2 st3 (Hn & Hr & He & Hw & Hx) (Hn' & Hr' & He' & Hw' & Hx').
    repeat split; try congruence; by etrans.
Qed.

Lemma absorb_extends (st : walk) (child : TextDylib) : extends st (absorb st child).
Proof.
  repeat split; simpl; try done; by apply prefix_app_r.
Qed.

Lemma push_external_extends (st : walk) (lib : string) :
  extends st (push_external st lib).
Proof.
  repeat split; simpl; try done. by apply prefix_app_r.
Qed.

Lemma handle_reexported_libs_extends (depth : nat) (map : gmap string TextDylib)
    (libs : list string) (st st' : walk) :
  handle_reexported_libs depth map libs st = Some st' → extends st st'.
Proof.
  revert libs st st'. induction depth as [|depth IH]; intros libs st st'; simpl.
  - discriminate.
  - apply (for_each_R _ extends). clear libs st st'. intros st lib st'.
    destruct (map !! lib) as [child|].
    + intros H. transitivity (absorb st child); [apply absorb_extends | by eapply IH].
    + intros [= <-]. apply push_external_extends.
Qed.

(** Allowing a deeper recursion does not change a walk that came back. *)
Lemma handle_reexported_libs_deeper (depth depth' : nat)
    (map : gmap string TextDylib) (libs : list string) (st st' : walk) :
  depth ≤ depth' →
  handle_reexported_libs depth map libs st = Some st' →
  handle_reexported_libs depth' map libs st = Some st'.
Proof.
  revert depth' libs st st'.
  induction depth as [|depth IH]; intros depth' libs st st' Hle; simpl; [done|].
  destruct depth' as [|depth']; [lia|]. simpl.
  revert st. induction libs as [|lib libs IHl]; intros st; simpl; [done|].
  destruct (map !! lib) as [child|].
  - destruct (handle_reexported_libs depth map (reexported_libs child)
                (absorb st child)) as [st1|] eqn:Hc; [|discriminate].
    rewrite (IH depth' _ _ st1); [apply IHl | lia | done].
  - apply IHl.
Qed.

(** The walk fails to come back within [depth] nested calls exactly when
    there are [depth] descriptors it enters one inside the other. *)
Lemma handle_reexported_libs_None (depth : nat) (map : gmap string TextDylib)
    (libs : list string) (st : walk) :
  handle_reexported_libs depth map libs st = None
  ↔ ∃ p, length p = depth ∧ walk_path map libs p.
Proof.
  revert libs st. induction depth as [|depth IH]; intros libs st; simpl.
  - split; [|done]. intros _. exists []. split; [done | constructor].
  - revert st. induction libs as [|lib libs IHl]; intros st; simpl.
    + split; [done|]. intros (p & Hlen & Hp).
      inversion Hp as [|? ? ? ? Hin]; subst; [done | inversion Hin].
    + destruct (map !! lib) as [child|] eqn:Hlib.
      * destruct (handle_reexported_libs depth map (reexported_libs child)
                    (absorb st child)) as [st1|] eqn:Hc.
        -- rewrite IHl. split.
           ++ intros (p & Hlen & Hp). exists p. split; [done|].
              inversion Hp; subst; [done|]. econstructor; [|done..].
              by apply list_elem_of_further.
           ++ intros (p & Hlen & Hp). exists p. split; [done|].
              inversion Hp as [|? lib' child' p' Hin Hlk Hp']; subst; [done|].
              apply elem_of_cons in Hin as [->|Hin].
              ** assert (child' = child) as -> by congruence.
                 assert (handle_reexported_libs depth map (reexported_libs child)
                           (absorb st child) = None) as Hnone.
                 { apply IH. exists p'. split; [|done]. simpl in Hlen. lia. }
                 congruence.
              ** by econstructor.
        -- split; [|done]. intros _.
           apply IH in Hc as (p & Hlen & Hp).
           exists (child :: p). split; [simpl; lia|].
           econstructor; [|done..]. apply list_elem_of_here.
      * rewrite IHl. split.
        -- intros (p & Hlen & Hp). exists p. split; [done|].
           inversion Hp; subst; [done|]. econstructor; [|done..].
           by apply list_elem_of_further.
        -- intros (p & Hlen & Hp). exists p. split; [done|].
           inversion Hp as [|? lib' child' p' Hin Hlk Hp']; subst; [done|].
           apply elem_of_cons in Hin as [->|Hin]; [congruence|].
           by econstructor.
Qed.

(** ** The lookup table *)

Lemma lookup_table_snoc (rest : list TextDylib) (tbd : TextDylib) :
  lookup_table (rest ++ [tbd]) = <[install_name tbd := tbd]> (lookup_table rest).
Proof. unfold lookup_table. by rewrite fold_left_app. Qed.

(** An entry of the table is one of the descriptors after the first,
    filed under its own install name. *)
Lemma lookup_table_Some (rest : list TextDylib) (lib : string) (child : TextDylib) :
  lookup_table rest !! lib = Some child →
  child ∈ rest ∧ install_name child = lib.
Proof.
  induction rest as [|tbd rest IH] using rev_ind.
  - unfold lookup_table; simpl. by rewrite lookup_empty.
  - rewrite lookup_table_snoc, lookup_insert. case_decide as Hk.
    + intros [= <-]. split; [|done]. apply elem_of_app. right. apply list_elem_of_here.
    + intros H. destruct (IH H) as [Hin Hn]. split; [|done].
      apply elem_of_app. by left.
Qed.

(** Last write wins: of several descriptors with one install name, the
    table keeps the last. *)
Lemma lookup_table_last (before after : list TextDylib) (tbd : TextDylib) :
  (∀ d, d ∈ after → install_name d ≠ install_name tbd) →
  lookup_table (before ++ tbd :: after) !! install_name tbd = Some tbd.
Proof.
  induction after as [|d after IH] using rev_ind; intros Hlast.
  - rewrite lookup_table_snoc. apply lookup_insert_eq.
  - change (before ++ tbd :: after ++ [d]) with (before ++ (tbd :: after) ++ [d]).
    rewrite app_assoc, lookup_table_snoc, lookup_insert_ne.
    + apply IH. intros d' Hd'. apply Hlast.
      apply elem_of_app. by left.
    + apply Hlast. apply elem_of_app. right. apply list_elem_of_here.
Qed.

Lemma lookup_table_None (rest : list TextDylib) (lib : string) :
  lookup_table rest !! lib = None ↔ ∀ d, d ∈ rest → install_name d ≠ lib.
Proof.
  induction rest as [|tbd rest IH] using rev_ind.
  - split; [intros _ d Hd; inversion Hd | intros _; apply lookup_empty].
  - rewrite lookup_table_snoc, lookup_insert. case_decide as Hk.
    + split; [done|]. intros H. exfalso. apply (H tbd); [|done].
      apply elem_of_app. right. apply list_elem_of_here.
    + rewrite IH. split.
      * intros H d Hd. apply elem_of_app in Hd as [Hd|Hd]; [by apply H|].
        apply list_elem_of_singleton in Hd as ->. done.
      * intros H d Hd. apply H. apply elem_of_app. by left.
Qed.

(** ** Paths of the walk and cycles of the re-export graph *)

Lemma table_edge_reexports (main : TextDylib) (rest : list TextDylib)
    (d d' : TextDylib) :
  d ∈ main :: rest → table_edge (lookup_table rest) d d' →
  reexports (main :: rest) d d' ∧ d' ∈ rest.
Proof.
  intros Hd (lib & Hlib & Hlk).
  apply lookup_table_Some in Hlk as [Hin <-].
  split; [|done]. repeat split; [done | by apply list_elem_of_further | done].
Qed.

Lemma table_cycle_reexports (main : TextDylib) (rest : list TextDylib)
    (d d' : TextDylib) :
  clos_trans _ (table_edge (lookup_table rest)) d d' → d ∈ main :: rest →
  clos_trans _ (reexports (main :: rest)) d d' ∧ d' ∈ rest.
Proof.
  induction 1 as [d d' Hedge | d mid d' _ IH1 _ IH2]; intros Hd.
  - destruct (table_edge_reexports main rest d d' Hd Hedge).
    split; [by apply t_step | done].
  - destruct (IH1 Hd) as [H1 Hmid].
    destruct IH2 as [H2 Hd']; [by apply list_elem_of_further|].
    split; [by eapply t_trans | done].
Qed.

Lemma walk_path_in_table (map : gmap string TextDylib) (libs : list string)
    (p : list TextDylib) (d : TextDylib) :
  walk_path map libs p → d ∈ p → ∃ lib, map !! lib = Some d.
Proof.
  induction 1 as [|libs lib child p Hin Hlk Hp IH]; intros Hd; [inversion Hd|].
  apply elem_of_cons in Hd as [->|Hd]; eauto.
Qed.

(** In a path, every descriptor reaches the ones entered below it. *)
Lemma walk_path_reaches (map : gmap string TextDylib) (libs : list string)
    (d : TextDylib) (p : list TextDylib) (d' : TextDylib) :
  walk_path map libs (d :: p) → d' ∈ p →
  clos_trans _ (table_edge map) d d'.
Proof.
  revert libs d. induction p as [|c p IH]; intros libs d Hp Hd'; [inversion Hd'|].
  inversion Hp as [|? lib ? ? Hin Hlk Hp']; subst.
  assert (table_edge map d c) as Hdc.
  { inversion Hp' as [|? lib' ? ? Hin' Hlk' _]; subst. by exists lib'. }
  apply elem_of_cons in Hd' as [->|Hd']; [by apply t_step|].
  eapply t_trans; [by apply t_step | by eapply IH].
Qed.

(** A path that enters one descriptor twice closes a cycle. *)
Lemma walk_path_repeat (map : gmap string TextDylib) (libs : list string)
    (p : list TextDylib) :
  walk_path map libs p → ¬ NoDup p →
  ∃ d, d ∈ p ∧ clos_trans _ (table_edge map) d d.
Proof.
  induction 1 as [|libs lib child p Hin Hlk Hp IH]; intros Hdup.
  - destruct Hdup. constructor.
  - destruct (decide (child ∈ p)) as [Hc|Hc].
    + exists child. split; [apply list_elem_of_here|].
      eapply walk_path_reaches; [|done]. by econstructor.
    + destruct IH as (d & Hd & Hcyc).
      * intros Hnd. apply Hdup. by constructor.
      * exists d. split; [by apply list_elem_of_further | done].
Qed.

(** Without a cycle no path is longer than the table has descriptors. *)
Lemma acyclic_path_length (main : TextDylib) (rest : list TextDylib)
    (libs : list string) (p : list TextDylib) :
  acyclic (main :: rest) → walk_path (lookup_table rest) libs p →
  length p ≤ length rest.
Proof.
  intros Hacyc Hp.
  destruct (decide (NoDup p)) as [Hnd|Hdup].
  - apply submseteq_length, NoDup_submseteq; [done|].
    intros d Hd. destruct (walk_path_in_table _ _ _ _ Hp Hd) as [lib Hlk].
    by apply lookup_table_Some in Hlk as [? _].
  - destruct (walk_path_repeat _ _ _ Hp Hdup) as (d & Hd & Hcyc).
    destruct (walk_path_in_table _ _ _ _ Hp Hd) as [lib Hlk].
    apply lookup_table_Some in Hlk as [Hin _].
    destruct (table_cycle_reexports main rest d d Hcyc) as [Hc _];
      [by apply list_elem_of_further|].
    by destruct (Hacyc d).
Qed.

(** The walk over an acyclic file comes back. *)
Lemma handle_reexported_libs_terminates (main : TextDylib) (rest : list TextDylib)
    (libs : list string) (st : walk) :
  acyclic (main :: rest) →
  is_Some (handle_reexported_libs (S (length rest)) (lookup_table rest) libs st).
Proof.
  intros Hacyc.
  destruct (handle_reexported_libs (S (length rest)) (lookup_table rest) libs st)
    as [st'|] eqn:H; [by eexists|].
  apply handle_reexported_libs_None in H as (p & Hlen & Hp).
  pose proof (acyclic_path_length main rest libs p Hacyc Hp). lia.
Qed.

(** A cycle of the table that the walk can enter keeps it from coming
    back, whatever the depth allowed. *)
Lemma cycle_paths (map : gmap string TextDylib) (d : TextDylib) (n : nat) :
  clos_trans _ (table_edge map) d d →
  ∃ p, length p = n ∧ walk_path map (reexported_libs d) p.
Proof.
  revert d. induction n as [|n IH]; intros d Hcyc.
  - exists []. split; [done | constructor].
  - apply clos_trans_t1n in Hcyc.
    assert (∃ c, table_edge map d c ∧ clos_trans _ (table_edge map) c c)
      as (c & (lib & Hlib & Hlk) & Hc).
    { inversion Hcyc as [? Hedge | c ? Hedge Hrest]; subst.
      - exists d. split; [done | by apply t_step].
      - exists c. split; [done|].
        apply clos_t1n_trans in Hrest. eapply t_trans; [done | by apply t_step]. }
    destruct (IH c Hc) as (p & Hlen & Hp).
    exists (c :: p). split; [simpl; lia | by econstructor].
Qed.

Lemma resolved_paths (map : gmap string TextDylib) (libs : list string)
    (lib : string) (d : TextDylib) (n : nat) :
  resolved map libs lib d →
  (∀ k, ∃ p, length p = k ∧ walk_path map (reexported_libs d) p) →
  ∃ p, length p = n ∧ walk_path map libs p.
Proof.
  intros Hres Hd. revert n.
  induction Hres as [libs lib child Hin Hlk | libs via mid lib child Hin Hlk _ IH];
    intros [|n]; try (exists []; split; [done | constructor]).
  - destruct (Hd n) as (p & Hlen & Hp).
    exists (child :: p). split; [simpl; lia | by econstructor].
  - destruct (IH Hd n) as (p & Hlen & Hp).
    exists (mid :: p). split; [simpl; lia | by econstructor].
Qed.

(** ** What the walk collects *)

Global Instance only_unresolved_preorder (map : gmap string TextDylib) :
  PreOrder (only_unresolved map).
Proof.
  split.
  - intros st lib Hlib. by left.
  - intros st1 st2 st3 H12 H23 lib Hlib.
    destruct (H23 lib Hlib) as [H2|Hnone]; [by apply H12 | by right].
Qed.

Lemma handle_reexported_libs_unresolved (depth : nat) (map : gmap string TextDylib)
    (libs : list string) (st st' : walk) :
  handle_reexported_libs depth map libs st = Some st' → only_unresolved map st st'.
Proof.
  revert libs st st'. induction depth as [|depth IH]; intros libs st st'; simpl.
  - discriminate.
  - apply (for_each_R _ (only_unresolved map)). clear libs st st'.
    intros st lib st'. destruct (map !! lib) as [child|] eqn:Hlk.
    + intros H. apply IH in H. intros x Hx. by apply H.
    + intros [= <-] x Hx. simpl in Hx.
      apply elem_of_app in Hx as [Hx|Hx]; [by left|].
      apply list_elem_of_singleton in Hx as ->. by right.
Qed.

Lemma handle_reexported_libs_collects (depth : nat) (map : gmap string TextDylib)
    (libs : list string) (st st' : walk) (lib : string) (child : TextDylib) :
  handle_reexported_libs depth map libs st = Some st' →
  resolved map libs lib child →
  (∀ s, s ∈ exports child → s ∈ exports (walk_main st'))
  ∧ (∀ s, s ∈ weak_exports child → s ∈ weak_exports (walk_main st')).
Proof.
  revert libs st st'. induction depth as [|depth IH]; intros libs st st' Hwalk Hres;
    simpl in Hwalk; [discriminate|].
  assert (∀ name d, name ∈ libs → map !! name = Some d →
            ∃ st0 st1,
              handle_reexported_libs depth map (reexported_libs d) (absorb st0 d)
              = Some st1 ∧ extends st1 st') as Hturn.
  { intros name d Hin Hlk.
    eapply (for_each_turn _ extends) in Hwalk as (st0 & st1 & _ & Hbody & H1);
      [|clear; intros s x s'|exact Hin].
    - rewrite Hlk in Hbody. by exists st0, st1.
    - destruct (map !! x) as [c|].
      + intros H. transitivity (absorb s c);
          [apply absorb_extends | by eapply handle_reexported_libs_extends].
      + intros [= <-]. apply push_external_extends. }
  inversion Hres as [? ? ? Hin Hlk | ? via mid ? ? Hin Hlk Hbelow]; subst.
  - destruct (Hturn lib child Hin Hlk) as (st0 & st1 & Hc & H1).
    apply handle_reexported_libs_extends in Hc.
    assert (extends (absorb st0 child) st') as (_ & _ & [e He] & [w Hw] & _)
      by (by etrans).
    simpl in He, Hw. rewrite He, Hw. split; intros s Hs.
    + rewrite <- app_assoc. apply elem_of_app. right. apply elem_of_app. by left.
    + rewrite <- app_assoc. apply elem_of_app. right. apply elem_of_app. by left.
  - destruct (Hturn via mid Hin Hlk) as (st0 & st1 & Hc & (_ & _ & [e He] & [w Hw] & _)).
    destruct (IH _ _ _ Hc Hbelow) as [Hexp Hweak].
    rewrite He, Hw. split; intros s Hs; apply elem_of_app; left; auto.
Qed.

Lemma ranked_acyclic (rank : TextDylib → nat) (tbds : list TextDylib) :
  ranked rank tbds = true → acyclic tbds.
Proof.
  unfold ranked. rewrite forallb_forall. intros Hrank.
  assert (∀ d d', clos_trans _ (reexports tbds) d d' → rank d < rank d') as Hlt.
  { induction 1 as [d d' (Hd & Hd' & Hin) | d mid d' _ IH1 _ IH2]; [|lia].
    apply list_elem_of_In in Hd, Hd'.
    specialize (Hrank d Hd). rewrite forallb_forall in Hrank.
    specialize (Hrank d' Hd'). apply bool_decide_eq_true in Hrank. auto. }
  intros d Hcyc. apply Hlt in Hcyc. lia.
Qed.

(** The merge of an acyclic file returns, whatever depth above the number
    of candidate descriptors is allowed. *)
Lemma squash_acyclic_returns (main : TextDylib) (rest : list TextDylib) :
  acyclic (main :: rest) →
  ∃ st,
    handle_reexported_libs (S (length rest)) (lookup_table rest)
      (reexported_libs main) (mkWalk main []) = Some st
    ∧ ∀ depth, length rest < depth →
        squash depth (main :: rest)
        = Returns (set_reexported_libs (walk_main st) (external_libs st)).
Proof.
  intros Hacyc.
  destruct (handle_reexported_libs_terminates main rest (reexported_libs main)
              (mkWalk main []) Hacyc) as [st Hst].
  exists st. split; [done|]. intros depth Hdepth. unfold squash.
  by rewrite (handle_reexported_libs_deeper (S (length rest)) depth _ _ _ st)
    by (done || lia).
Qed.

(** ** Merge *)

(** C3. When the re-export graph of the file is acyclic the merge
    returns, and for every library reached from the primary descriptor by
    a chain of re-exports whose links the lookup table resolves, all its
    exports (and weak exports) are in the merged descriptor, and its name
    is not in the merged [reexported_libs].  Such a library is one of the
    descriptors after the first, found under its install name. *)
Theorem squash_inlines_reexport_closure (main : TextDylib) (rest : list TextDylib) :
  acyclic (main :: rest) →
  ∃ merged,
    (∀ depth, length rest < depth → squash depth (main :: rest) = Returns merged)
    ∧ ∀ lib child,
        resolved (lookup_table rest) (reexported_libs main) lib child →
        child ∈ rest ∧ install_name child = lib
        ∧ (∀ s, s ∈ exports child → s ∈ exports merged)
        ∧ (∀ s, s ∈ weak_exports child → s ∈ weak_exports merged)
        ∧ lib ∉ reexported_libs merged.
Proof.
  intros Hacyc.
  destruct (squash_acyclic_returns main rest Hacyc) as (st & Hst & Hsquash).
  eexists. split; [exact Hsquash|].
  intros lib child Hres.
  destruct (handle_reexported_libs_collects _ _ _ _ _ _ _ Hst Hres) as [Hexp Hweak].
  assert (lookup_table rest !! lib = Some child) as Hlk
    by (clear -Hres; induction Hres; eauto).
  destruct (lookup_table_Some _ _ _ Hlk) as [Hin Hname].
  split; [exact Hin|]. split; [exact Hname|].
  split; [exact Hexp|]. split; [exact Hweak|].
  simpl. intros Hext.
  destruct (handle_reexported_libs_unresolved _ _ _ _ _ Hst lib Hext) as [Hnil|Hnone].
  - inversion Hnil.
  - congruence.
Qed.

Lemma squash_inlines_reexport_closure_witness :
  acyclic [lib_a; lib_b; lib_c]
  ∧ ∃ merged,
      squash 3 [lib_a; lib_b; lib_c] = Returns merged
      ∧ "_c" ∈ exports merged ∧ "C" ∉ reexported_libs merged.
Proof.
  assert (acyclic [lib_a; lib_b; lib_c]) as Hacyc
    by (apply (ranked_acyclic rank_abc); vm_compute; reflexivity).
  split; [exact Hacyc|].
  destruct (squash_inlines_reexport_closure lib_a [lib_b; lib_c] Hacyc)
    as (merged & Hret & Hall).
  exists merged. split; [apply Hret; simpl; lia|].
  destruct (Hall "C" lib_c) as (_ & _ & Hexp & _ & Hname).
  - apply resolved_below with "B" lib_b;
      [apply list_elem_of_here | vm_compute; reflexivity|].
    apply resolved_here; [apply list_elem_of_here | vm_compute; reflexivity].
  - split; [apply Hexp, list_elem_of_here | exact Hname].
Defined.

(** One turn of the loop for a name the lookup table does not hold,
    wherever it stands in the list being walked: the loop goes on with the
    state reached before it, in which the name has been appended to
    [external_libs] and [main] is untouched. *)
Lemma unresolved_library_passes_through (depth : nat)
    (map : gmap string TextDylib) (before after : list string) (lib : string)
    (st : walk) :
  map !! lib = None →
  handle_reexported_libs (S depth) map (before ++ lib :: after) st
  = (handle_reexported_libs (S depth) map before st ≫=
       (fun st1 =>
          handle_reexported_libs (S depth) map after
            (mkWalk (walk_main st1) (external_libs st1 ++ [lib])))).
Proof.
  intros Hnone. simpl. rewrite for_each_app.
  destruct (for_each _ before st) as [st1|]; simpl; [|done].
  by rewrite Hnone.
Qed.

(** C8, as the code has it.  The walk comes back for every file whose
    re-export graph is acyclic.  It never comes back when two descriptors
    held by the lookup table (so neither is the primary one) re-export
    each other and the walk reaches one of them from the primary
    descriptor. *)
Theorem walk_termination (main : TextDylib) (rest : list TextDylib) :
  (acyclic (main :: rest) →
   ∃ merged, ∀ depth, length rest < depth →
     squash depth (main :: rest) = Returns merged)
  ∧ (∀ a b q r,
       resolved (lookup_table rest) (reexported_libs main) a q →
       b ∈ reexported_libs q → lookup_table rest !! b = Some r →
       a ∈ reexported_libs r →
       ∀ depth, squash depth (main :: rest) = Diverges).
Proof.
  split.
  - intros Hacyc.
    destruct (squash_acyclic_returns main rest Hacyc) as (st & _ & Hsquash).
    eexists. exact Hsquash.
  - intros a b q r Hres Hb Hr Ha depth.
    assert (lookup_table rest !! a = Some q) as Hq.
    { clear -Hres. induction Hres; eauto. }
    assert (clos_trans _ (table_edge (lookup_table rest)) q q) as Hcyc.
    { apply t_trans with r; apply t_step; [by exists b | by exists a]. }
    assert (handle_reexported_libs depth (lookup_table rest)
              (reexported_libs main) (mkWalk main []) = None) as Hnone.
    { apply handle_reexported_libs_None.
      eapply resolved_paths; [exact Hres|].
      intros k. by apply cycle_paths. }
    unfold squash. by rewrite Hnone.
Qed.

Lemma walk_termination_witness :
  (∃ merged, squash 3 [lib_a; lib_b; lib_c] = Returns merged)
  ∧ ∀ depth, squash depth [lib_m; lib_q2; lib_r] = Diverges.
Proof.
  split.
  - destruct (proj1 (walk_termination lib_a [lib_b; lib_c])) as [merged Hret].
    + apply (ranked_acyclic rank_abc); vm_compute; reflexivity.
    + exists merged. apply Hret. simpl; lia.
  - apply (proj2 (walk_termination lib_m [lib_q2; lib_r]) "Q" "R" lib_q2 lib_r).
    + apply resolved_here; [apply list_elem_of_here | vm_compute; reflexivity].
    + apply list_elem_of_here.
    + vm_compute; reflexivity.
    + apply list_elem_of_here.
Defined.

(** C8, as stated, fails: the primary descriptor and its sibling
    re-export each other, and the walk comes back, because the primary
    descriptor is not in the lookup table and its name is recorded as
    external. *)
Lemma mutual_reexport_with_primary_returns :
  mutual_reexport [lib_p; lib_q]
  ∧ squash 2 [lib_p; lib_q] = Returns (mkTextDylib "P" ["P"] ["_p"; "_q"] ["_wq"])
  ∧ ¬ (∀ depth, squash depth [lib_p; lib_q] = Diverges).
Proof.
  split; [|split].
  - exists lib_p, lib_q. split; [discriminate|].
    split; (split; [|split]); simpl;
      repeat (apply list_elem_of_here || apply list_elem_of_further).
  - vm_compute; reflexivity.
  - intros H. specialize (H 2). vm_compute in H. discriminate.
Qed.

(** C10. The merged descriptor has the install name of the first
    descriptor, and the exports and weak exports of the first descriptor
    are a prefix of the merged ones. *)
Theorem squash_frame (depth : nat) (main : TextDylib) (rest : list TextDylib)
    (merged : TextDylib) :
  squash depth (main :: rest) = Returns merged →
  install_name merged = install_name main
  ∧ exports main `prefix_of` exports merged
  ∧ weak_exports main `prefix_of` weak_exports merged.
Proof.
  unfold squash.
  destruct (handle_reexported_libs depth (lookup_table rest) (reexported_libs main)
              (mkWalk main [])) as [st|] eqn:Hwalk; [|discriminate].
  intros [= <-].
  apply handle_reexported_libs_extends in Hwalk as (Hn & _ & He & Hw & _).
  simpl in *. done.
Qed.

Lemma squash_frame_witness :
  ∃ merged,
    squash 3 [lib_a; lib_b; lib_c] = Returns merged
    ∧ install_name merged = "A"
    ∧ ["_a"] `prefix_of` exports merged
    ∧ [] `prefix_of` weak_exports merged.
Proof.
  eexists. split; [vm_compute; reflexivity|].
  apply (squash_frame 3 lib_a [lib_b; lib_c]). vm_compute; reflexivity.
Defined.

(** ** File-level driver *)

Lemma count_newlines (contents : string) (n : nat) :
  n ≤ String.length contents →
  count contents n newline = Some (Z.of_nat (newlines_before contents n)).
Proof.
  unfold newlines_before.
  revert contents. induction n as [|n IH]; intros contents Hn;
    [by destruct contents|].
  destruct contents as [|c rest]; simpl in *; [lia|].
  rewrite IH by lia. simpl.
  destruct (Ascii.eqb c newline); simpl; f_equal; lia.
Qed.

(** The descriptors [parse] hands to [squash]. *)
Lemma extracted_none (arch : string) (nodes : list YamlNode) (vec : list TextDylib) :
  (∀ node, node ∈ nodes → to_tbd node arch = None) →
  fold_left
    (fun vec node =>
       match to_tbd node arch with
       | Some dylib => vec ++ [dylib]
       | None => vec
       end)
    nodes vec = vec.
Proof.
  revert vec. induction nodes as [|node nodes IH]; intros vec Hnone; [done|].
  simpl. rewrite (Hnone node) by apply list_elem_of_here.
  apply IH. intros n Hn. apply Hnone. by apply list_elem_of_further.
Qed.

Section DriverProperties.

Variable parse_yaml : string → list YamlNode + YamlError.

(** C5 does not hold of the code.  The driver checks that the list of
    documents is not empty, not that the list of extracted descriptors is:
    when the file has documents and none is for the requested
    architecture, [squash] is called on an empty list and reads its first
    element, outside the bounds of the list. *)
Theorem parse_no_document_for_arch (depth : nat) (contents name arch : string)
    (nodes : list YamlNode) :
  parse_yaml contents = inl nodes → nodes ≠ [] →
  (∀ node, node ∈ nodes → YamlString arch ∉ get_vector node "targets") →
  parse parse_yaml depth contents name arch = Undefined.
Proof.
  intros Hyaml Hne Hnone. unfold parse. rewrite Hyaml.
  destruct nodes as [|node nodes]; [done|].
  rewrite extracted_none; [done|].
  intros n Hn. by apply to_tbd_not_targeted, contains_false, Hnone.
Qed.

(** C6. When the parser fails at byte offset [pos err] of the contents,
    the driver ends with the fatal diagnostic
    [<name>:<line>: YAML parse error: <message>], where [<line>] is one
    plus the number of newline bytes before the offset; with three
    newlines before the offset the line shown is 4. *)
Theorem parse_error_line_number (depth : nat) (contents name arch : string)
    (err : YamlError) :
  parse_yaml contents = inr err →
  pos err ≤ String.length contents →
  parse parse_yaml depth contents name arch
  = Fatal (name +:+ ":"
           +:+ show_i64 (Z.of_nat (1 + newlines_before contents (pos err)))
           +:+ ": YAML parse error: " +:+ msg err)
  ∧ (newlines_before contents (pos err) = 3 →
     parse parse_yaml depth contents name arch
     = Fatal (name +:+ ":4: YAML parse error: " +:+ msg err)).
Proof.
  intros Hyaml Hpos.
  assert (parse parse_yaml depth contents name arch
          = Fatal (name +:+ ":"
                   +:+ show_i64 (Z.of_nat (1 + newlines_before contents (pos err)))
                   +:+ ": YAML parse error: " +:+ msg err)) as Hfatal.
  { unfold parse. rewrite Hyaml, count_newlines by done.
    by replace (Z.of_nat (1 + newlines_before contents (pos err)))
      with (Z.of_nat (newlines_before contents (pos err)) + 1)%Z by lia. }
  split; [exact Hfatal|].
  intros H3. rewrite Hfatal, H3. reflexivity.
Qed.

(** C7. When the parser succeeds with no document, the driver ends with
    the fatal diagnostic [<name>: malformed TBD file].  A fatal
    diagnostic of the driver is either this one, for an empty list of
    documents, or the one for a parse failure. *)
Theorem parse_fatal_outcomes (depth : nat) (contents name arch : string) :
  (parse_yaml contents = inl [] →
   parse parse_yaml depth contents name arch
   = Fatal (name +:+ ": malformed TBD file"))
  ∧ (∀ diagnostic,
       parse parse_yaml depth contents name arch = Fatal diagnostic →
       (parse_yaml contents = inl []
        ∧ diagnostic = name +:+ ": malformed TBD file")
       ∨ (∃ err lineno,
            parse_yaml contents = inr err
            ∧ count contents (pos err) newline = Some lineno
            ∧ diagnostic
              = name +:+ ":" +:+ show_i64 (lineno + 1)
                +:+ ": YAML parse error: " +:+ msg err)).
Proof.
  split.
  - intros Hyaml. unfold parse. by rewrite Hyaml.
  - intros diagnostic. unfold parse.
    destruct (parse_yaml contents) as [nodes|err].
    + destruct nodes as [|node nodes].
      * intros [= <-]. by left.
      * unfold squash.
        destruct (fold_left _ (node :: nodes) []) as [|main rest]; [discriminate|].
        simpl. by destruct (handle_reexported_libs _ _ _ _).
    + destruct (count contents (pos err) newline) as [lineno|] eqn:Hcount;
        [|discriminate].
      intros [= <-]. right. by exists err, lineno.
Qed.

End DriverProperties.

Lemma parse_no_document_for_arch_witness :
  parse_tbd_arm64 (yaml_documents [x86_document]) 1 "" "libfoo.tbd" = Undefined.
Proof.
  apply (parse_no_document_for_arch (yaml_documents [x86_document]) 1 ""
           "libfoo.tbd" "arm64-macos" [x86_document]).
  - reflexivity.
  - discriminate.
  - intros node Hnode. apply list_elem_of_singleton in Hnode as ->.
    apply contains_false. vm_compute; reflexivity.
Defined.

Lemma parse_error_line_number_witness :
  parse (yaml_failure (mkYamlError "did not find expected key" 6)) 1
    four_lines "libfoo.tbd" "arm64-macos"
  = Fatal "libfoo.tbd:4: YAML parse error: did not find expected key".
Proof.
  refine (proj2 (parse_error_line_number
                   (yaml_failure (mkYamlError "did not find expected key" 6)) 1
                   four_lines "libfoo.tbd" "arm64-macos"
                   (mkYamlError "did not find expected key" 6) _ _) _).
  - reflexivity.
  - vm_compute; lia.
  - vm_compute; reflexivity.
Defined.

Lemma parse_fatal_outcomes_witness :
  parse (yaml_documents []) 1 "" "libfoo.tbd" "arm64-macos"
  = Fatal "libfoo.tbd: malformed TBD file".
Proof.
  apply (proj1 (parse_fatal_outcomes (yaml_documents []) 1 "" "libfoo.tbd"
                  "arm64-macos")).
  reflexivity.
Defined.

(** * Further properties *)

(** ** Node query helpers *)

Lemma scalars_loop (vec : list YamlNode) (acc : list string) :
  fold_left
    (fun vec mem => match mem with YamlString val => vec ++ [val] | _ => vec end)
    vec acc
  = acc ++ omap scalar_of vec.
Proof.
  revert acc. induction vec as [|mem vec IH]; intros acc; simpl.
  - by rewrite app_nil_r.
  - rewrite IH. destruct mem; simpl; [by rewrite <- app_assoc | done | done].
Qed.

Lemma scalar_of_Some (mem : YamlNode) (s : string) :
  scalar_of mem = Some s ↔ mem = YamlString s.
Proof. destruct mem; simpl; split; congruence. Qed.

(** X1. [get_string_vector] returns the scalars of the sequence under
    [key], in their order; members that are sequences or mappings are
    skipped. *)
Theorem get_string_vector_scalars (node : YamlNode) (key : string) :
  get_string_vector node key = omap scalar_of (get_vector node key).
Proof. unfold get_string_vector. by rewrite scalars_loop. Qed.

(** X2. [contains] on the sequence under [key] is membership in the
    strings [get_string_vector] returns for that key. *)
Theorem contains_string_vector (node : YamlNode) (key s : string) :
  contains (get_vector node key) s = true ↔ s ∈ get_string_vector node key.
Proof.
  unfold get_string_vector. rewrite scalars_loop, contains_true. simpl.
  rewrite list_elem_of_omap. split.
  - intros Hin. exists (YamlString s). by split.
  - intros (mem & Hin & Hs). apply scalar_of_Some in Hs. by subst.
Qed.

(** ** Extraction *)

Lemma to_tbd_Some (node : YamlNode) (arch : string) :
  contains (get_vector node "targets") arch = true →
  to_tbd node arch =
    Some (mkTextDylib
            (default "" (get_string node "install-name"))
            (members_libraries arch (get_vector node "reexported-libraries"))
            (members_exports arch
               (get_vector node "exports" ++ get_vector node "reexports"))
            (members_weak_exports arch
               (get_vector node "exports" ++ get_vector node "reexports"))).
Proof.
  intros Harch. unfold to_tbd. rewrite Harch. simpl. f_equal.
  rewrite !members_loop, libraries_loop. simpl.
  unfold members_libraries, members_exports, members_weak_exports, applicable.
  rewrite !List.filter_app, !flat_map_app.
  destruct (get_string node "install-name"); simpl; by rewrite <- ?app_assoc.
Qed.

Lemma to_tbd_yields_helper (node : YamlNode) (arch : string) :
  YamlString arch ∈ get_vector node "targets" ↔ is_Some (to_tbd node arch).
Proof.
  rewrite <- contains_true. unfold to_tbd.
  destruct (contains (get_vector node "targets") arch); simpl.
  - split; [by eexists | done].
  - split; [done | by intros [? ?]].
Qed.

(** X3. [to_tbd] yields a descriptor exactly when the ["targets"] of
    the document hold the architecture as a scalar; a document that is
    not a mapping, or has no such sequence, yields none. *)
Theorem to_tbd_yields_iff_targeted (node : YamlNode) (arch : string) :
  is_Some (to_tbd node arch) ↔ YamlString arch ∈ get_vector node "targets".
Proof.
  symmetry. apply to_tbd_yields_helper.
Qed.

(** X4. The descriptor of a document for the architecture, field by
    field: the install name is the scalar under ["install-name"] or the
    empty string; the re-exported libraries are the ["libraries"] of the
    applicable members of ["reexported-libraries"]; the exports and weak
    exports are collected from the applicable members of ["exports"]
    followed by those of ["reexports"]. *)
Theorem to_tbd_descriptor (node : YamlNode) (arch : string) :
  YamlString arch ∈ get_vector node "targets" →
  to_tbd node arch =
    Some (mkTextDylib
            (default "" (get_string node "install-name"))
            (members_libraries arch (get_vector node "reexported-libraries"))
            (members_exports arch (get_vector node "exports")
             ++ members_exports arch (get_vector node "reexports"))
            (members_weak_exports arch (get_vector node "exports")
             ++ members_weak_exports arch (get_vector node "reexports"))).
Proof.
  intros Harch. apply contains_true in Harch. rewrite (to_tbd_Some _ _ Harch).
  unfold members_exports, members_weak_exports, applicable.
  by rewrite !List.filter_app, !flat_map_app.
Qed.

(** X5. A key of the document other than the five [to_tbd] looks up has
    no effect on the descriptor. *)
Theorem to_tbd_ignores_other_keys (m : gmap string YamlNode) (key : string)
    (value : YamlNode) (arch : string) :
  key ∉ document_keys →
  to_tbd (YamlMap (<[key := value]> m)) arch = to_tbd (YamlMap m) arch.
Proof.
  intros Hkey.
  assert (∀ k, k ∈ document_keys → <[key := value]> m !! k = m !! k) as Hsame.
  { intros k Hk. apply lookup_insert_ne. intros ->. done. }
  assert (∀ k, k ∈ document_keys →
            get_vector (YamlMap (<[key := value]> m)) k = get_vector (YamlMap m) k)
    as Hvec by (intros k Hk; unfold get_vector; by rewrite Hsame).
  assert (get_string (YamlMap (<[key := value]> m)) "install-name"
          = get_string (YamlMap m) "install-name") as Hstr.
  { unfold get_string. rewrite Hsame; [done | unfold document_keys; set_solver]. }
  destruct (contains (get_vector (YamlMap m) "targets") arch) eqn:Harch.
  - rewrite (to_tbd_Some (YamlMap m)) by done.
    rewrite to_tbd_Some
      by (rewrite Hvec; [done | unfold document_keys; set_solver]).
    rewrite Hstr, !Hvec; [done | unfold document_keys; set_solver..].
  - rewrite (to_tbd_not_targeted (YamlMap m)) by done.
    apply to_tbd_not_targeted.
    rewrite Hvec; [done | unfold document_keys; set_solver].
Qed.

Lemma members_exports_elem (arch : string) (members : list YamlNode) (s : string) :
  s ∈ members_exports arch members
  ↔ ∃ mem, mem ∈ members ∧ YamlString arch ∈ get_vector mem "targets"
           ∧ s ∈ member_exports mem.
Proof.
  unfold members_exports, applicable.
  rewrite list_elem_of_In, in_flat_map. split.
  - intros (mem & Hmem & Hs). apply filter_In in Hmem as [Hmem Harch].
    exists mem. by rewrite list_elem_of_In, <- contains_true, list_elem_of_In.
  - intros (mem & Hmem & Harch & Hs). exists mem.
    rewrite filter_In, <- !list_elem_of_In, contains_true. done.
Qed.

Lemma member_exports_elem (mem : YamlNode) (s : string) :
  s ∈ member_exports mem
  ↔ s ∈ get_string_vector mem "symbols"
    ∨ (∃ c, c ∈ get_string_vector mem "objc-classes"
            ∧ (s = "_OBJC_CLASS_$_" +:+ c ∨ s = "_OBJC_METACLASS_$_" +:+ c))
    ∨ (∃ e, e ∈ get_string_vector mem "objc-eh-types"
            ∧ s = "_OBJC_EHTYPE_$_" +:+ e)
    ∨ (∃ i, i ∈ get_string_vector mem "objc-ivars"
            ∧ s = "_OBJC_IVAR_$_" +:+ i).
Proof.
  unfold member_exports, objc_class_symbols.
  rewrite !elem_of_app, !list_elem_of_In, in_flat_map, !in_map_iff. simpl.
  split.
  - intros [Hs|[(c & Hc & Hs)|[(e & <- & He)|(i & <- & Hi)]]].
    + by left.
    + right; left. exists c. split; [by apply list_elem_of_In|].
      destruct Hs as [<-|[<-|[]]]; [by left | by right].
    + right; right; left. exists e. split; [by apply list_elem_of_In | done].
    + right; right; right. exists i. split; [by apply list_elem_of_In | done].
  - intros [Hs|[(c & Hc & Hs)|[(e & He & ->)|(i & Hi & ->)]]].
    + by left.
    + right; left. exists c. split; [by apply list_elem_of_In|].
      destruct Hs as [->| ->]; [by left | by right; left].
    + right; right; left. exists e. split; [done | by apply list_elem_of_In].
    + right; right; right. exists i. split; [done | by apply list_elem_of_In].
Qed.

(** X6. A name is exported by the descriptor exactly when some member of
    ["exports"] or ["reexports"] that applies to the architecture lists it
    under ["symbols"], or lists under ["objc-classes"], ["objc-eh-types"]
    or ["objc-ivars"] the name it is derived from. *)
Theorem to_tbd_exports_elem (node : YamlNode) (arch : string) (tbd : TextDylib)
    (s : string) :
  to_tbd node arch = Some tbd →
  s ∈ exports tbd
  ↔ ∃ mem,
      (mem ∈ get_vector node "exports" ∨ mem ∈ get_vector node "reexports")
      ∧ YamlString arch ∈ get_vector mem "targets"
      ∧ (s ∈ get_string_vector mem "symbols"
         ∨ (∃ c, c ∈ get_string_vector mem "objc-classes"
                 ∧ (s = "_OBJC_CLASS_$_" +:+ c ∨ s = "_OBJC_METACLASS_$_" +:+ c))
         ∨ (∃ e, e ∈ get_string_vector mem "objc-eh-types"
                 ∧ s = "_OBJC_EHTYPE_$_" +:+ e)
         ∨ (∃ i, i ∈ get_string_vector mem "objc-ivars"
                 ∧ s = "_OBJC_IVAR_$_" +:+ i)).
Proof.
  intros Htbd. destruct (to_tbd_exports _ _ _ Htbd) as [-> _].
  rewrite members_exports_elem.
  split; intros (mem & Hin & Harch & Hs); exists mem.
  - split; [by apply elem_of_app in Hin|].
    split; [done | by apply member_exports_elem].
  - split; [by apply elem_of_app|].
    split; [done | by apply member_exports_elem].
Qed.

(** X7. When the document is for the architecture but none of the
    members of ["exports"] and ["reexports"] is, a descriptor is still
    produced; it exports nothing. *)
Theorem to_tbd_no_applicable_member (node : YamlNode) (arch : string) :
  YamlString arch ∈ get_vector node "targets" →
  (∀ mem, mem ∈ get_vector node "exports" ++ get_vector node "reexports" →
          YamlString arch ∉ get_vector mem "targets") →
  ∃ tbd, to_tbd node arch = Some tbd ∧ exports tbd = [] ∧ weak_exports tbd = [].
Proof.
  intros Harch Hnone. apply contains_true in Harch.
  eexists. split; [by apply to_tbd_Some|]. simpl.
  assert (applicable arch
            (get_vector node "exports" ++ get_vector node "reexports") = [])
    as Hnil.
  { unfold applicable.
    induction (get_vector node "exports" ++ get_vector node "reexports")
      as [|mem members IH]; [done|].
    simpl. rewrite (proj2 (contains_false _ _)).
    - apply IH. intros m Hm. apply Hnone. by apply list_elem_of_further.
    - apply Hnone. apply list_elem_of_here. }
  unfold members_exports, members_weak_exports. by rewrite Hnil.
Qed.

Lemma applicable_flat_map_elem (f : YamlNode → list string) (arch : string)
    (members : list YamlNode) (s : string) :
  s ∈ flat_map f (applicable arch members)
  ↔ ∃ mem, mem ∈ members ∧ YamlString arch ∈ get_vector mem "targets" ∧ s ∈ f mem.
Proof.
  unfold applicable. rewrite list_elem_of_In, in_flat_map. split.
  - intros (mem & Hmem & Hs). apply filter_In in Hmem as [Hmem Harch].
    exists mem. by rewrite list_elem_of_In, <- contains_true, list_elem_of_In.
  - intros (mem & Hmem & Harch & Hs). exists mem.
    rewrite filter_In, <- !list_elem_of_In, contains_true. done.
Qed.

(** X18. A name is a weak export of the descriptor exactly when an
    applicable member of ["exports"] or ["reexports"] lists it under
    ["weak-symbols"]; it is a re-exported library exactly when an
    applicable member of ["reexported-libraries"] lists it under
    ["libraries"].  No derived name is ever a weak export. *)
Theorem to_tbd_weak_and_libraries_elem (node : YamlNode) (arch : string)
    (tbd : TextDylib) (s : string) :
  to_tbd node arch = Some tbd →
  (s ∈ weak_exports tbd
   ↔ ∃ mem,
       (mem ∈ get_vector node "exports" ∨ mem ∈ get_vector node "reexports")
       ∧ YamlString arch ∈ get_vector mem "targets"
       ∧ s ∈ get_string_vector mem "weak-symbols")
  ∧ (s ∈ reexported_libs tbd
     ↔ ∃ mem,
         mem ∈ get_vector node "reexported-libraries"
         ∧ YamlString arch ∈ get_vector mem "targets"
         ∧ s ∈ get_string_vector mem "libraries").
Proof.
  intros Htbd.
  assert (contains (get_vector node "targets") arch = true) as Harch.
  { apply contains_true, to_tbd_yields_helper. by eexists. }
  rewrite (to_tbd_Some _ _ Harch) in Htbd. injection Htbd as <-. simpl.
  unfold members_weak_exports, members_libraries.
  rewrite !applicable_flat_map_elem. split; [|done].
  split; intros (mem & Hin & Ht & Hs); exists mem.
  - split; [by apply elem_of_app in Hin | done].
  - split; [by apply elem_of_app | done].
Qed.

(** ** Merge *)

Lemma handle_reexported_libs_cons (depth : nat) (map : gmap string TextDylib)
    (lib : string) (libs : list string) (st : walk) :
  handle_reexported_libs (S depth) map (lib :: libs) st
  = match map !! lib with
    | Some child =>
        handle_reexported_libs depth map (reexported_libs child) (absorb st child)
        ≫= handle_reexported_libs (S depth) map libs
    | None => handle_reexported_libs (S depth) map libs (push_external st lib)
    end.
Proof.
  simpl. destruct (map !! lib) as [child|]; [|done].
  by destruct (handle_reexported_libs depth map (reexported_libs child)
                 (absorb st child)).
Qed.

Lemma handle_reexported_libs_nil (depth : nat) (map : gmap string TextDylib)
    (st : walk) :
  handle_reexported_libs (S depth) map [] st = Some st.
Proof. done. Qed.

Lemma walk_all_unresolved (depth : nat) (map : gmap string TextDylib)
    (libs : list string) (st : walk) :
  (∀ lib, lib ∈ libs → map !! lib = None) →
  handle_reexported_libs (S depth) map libs st
  = Some (mkWalk (walk_main st) (external_libs st ++ libs)).
Proof.
  revert st. induction libs as [|lib libs IH]; intros st Hnone.
  - rewrite handle_reexported_libs_nil, app_nil_r. by destruct st.
  - rewrite handle_reexported_libs_cons, (Hnone lib) by apply list_elem_of_here.
    rewrite IH by (intros l Hl; by apply Hnone, list_elem_of_further).
    simpl. by rewrite <- app_assoc.
Qed.

Lemma walk_leaves (depth : nat) (map : gmap string TextDylib)
    (libs : list string) (st : walk) :
  (∀ lib child, lib ∈ libs → map !! lib = Some child →
                reexported_libs child = []) →
  handle_reexported_libs (S (S depth)) map libs st
  = Some (mkWalk
            (mkTextDylib (install_name (walk_main st))
               (reexported_libs (walk_main st))
               (exports (walk_main st) ++ flat_map (exports_of map) libs)
               (weak_exports (walk_main st) ++ flat_map (weak_exports_of map) libs))
            (external_libs st ++ unresolved map libs)).
Proof.
  revert st. induction libs as [|lib libs IH]; intros st Hleaf.
  - rewrite handle_reexported_libs_nil. simpl. rewrite !app_nil_r.
    by destruct st as [[] ?].
  - rewrite handle_reexported_libs_cons.
    assert (∀ l c, l ∈ libs → map !! l = Some c → reexported_libs c = [])
      as Hleaf' by (intros l c Hl; by apply Hleaf, list_elem_of_further).
    destruct (map !! lib) as [child|] eqn:Hlk.
    + rewrite (Hleaf lib child) by (done || apply list_elem_of_here).
      rewrite handle_reexported_libs_nil. simpl option_bind.
      change (Some (absorb st child) ≫= handle_reexported_libs (S (S depth)) map libs)
        with (handle_reexported_libs (S (S depth)) map libs (absorb st child)).
      rewrite (IH _ Hleaf').
      unfold unresolved, exports_of, weak_exports_of. simpl. rewrite Hlk.
      rewrite bool_decide_eq_false_2 by done.
      by rewrite <- !app_assoc.
    + rewrite (IH _ Hleaf').
      unfold unresolved, exports_of, weak_exports_of. simpl. rewrite Hlk.
      rewrite bool_decide_eq_true_2 by done. simpl.
      by rewrite <- !app_assoc.
Qed.

Lemma handle_reexported_libs_from_table (depth : nat) (map : gmap string TextDylib)
    (libs : list string) (st st' : walk) :
  handle_reexported_libs depth map libs st = Some st' →
  from_table map libs st st'.
Proof.
  revert libs st st'. induction depth as [|depth IHd]; intros libs st st';
    [discriminate|].
  revert st. induction libs as [|lib libs IHl]; intros st.
  - rewrite handle_reexported_libs_nil. intros [= <-].
    repeat split; intros; by left.
  - rewrite handle_reexported_libs_cons.
    destruct (map !! lib) as [child|] eqn:Hlk.
    + destruct (handle_reexported_libs depth map (reexported_libs child)
                  (absorb st child)) as [st1|] eqn:Hchild; [|discriminate].
      simpl. intros Hrest.
      destruct (IHd _ _ _ Hchild) as (He1 & Hw1 & Hx1).
      destruct (IHl _ Hrest) as (He2 & Hw2 & Hx2).
      simpl in He1, Hw1, Hx1.
      repeat split.
      * intros s Hs. destruct (He2 s Hs) as [Hs1|?]; [|by right].
        destruct (He1 s Hs1) as [Hs0|?]; [|by right].
        apply elem_of_app in Hs0 as [?|?]; [by left | right; eauto].
      * intros s Hs. destruct (Hw2 s Hs) as [Hs1|?]; [|by right].
        destruct (Hw1 s Hs1) as [Hs0|?]; [|by right].
        apply elem_of_app in Hs0 as [?|?]; [by left | right; eauto].
      * intros x Hx. destruct (Hx2 x Hx) as [Hx1'|[?|?]].
        -- destruct (Hx1 x Hx1') as [?|[?|?]];
             [by left | right; right; eauto | by right; right].
        -- right; left. by apply list_elem_of_further.
        -- by right; right.
    + intros Hrest. destruct (IHl _ Hrest) as (He2 & Hw2 & Hx2).
      simpl in He2, Hw2, Hx2.
      repeat split; [done | done |].
      intros x Hx. destruct (Hx2 x Hx) as [Hx1|[?|?]].
      * apply elem_of_app in Hx1 as [?|Hx1]; [by left|].
        apply list_elem_of_singleton in Hx1 as ->.
        right; left. apply list_elem_of_here.
      * right; left. by apply list_elem_of_further.
      * by right; right.
Qed.

Lemma lookup_table_resolve (rest : list TextDylib) (lib : string) :
  lookup_table rest !! lib = resolve rest lib.
Proof.
  unfold resolve. induction rest as [|tbd rest IH] using rev_ind; [done|].
  rewrite lookup_table_snoc, List.filter_app, lookup_insert. simpl.
  destruct (String.eqb_spec (install_name tbd) lib) as [Heq|Hne].
  - rewrite decide_True by done. by rewrite last_snoc.
  - rewrite decide_False by done. by rewrite app_nil_r.
Qed.

Lemma walk_path_resolved (map : gmap string TextDylib) (libs : list string)
    (p : list TextDylib) (d : TextDylib) :
  walk_path map libs p → d ∈ p → ∃ lib, resolved map libs lib d.
Proof.
  induction 1 as [|libs lib child p Hin Hlk Hp IH]; intros Hd; [inversion Hd|].
  apply elem_of_cons in Hd as [->|Hd].
  - exists lib. by apply resolved_here.
  - destruct (IH Hd) as [lib' Hres]. exists lib'. by eapply resolved_below.
Qed.

(** X8. The table [squash] builds maps a name to the last of the
    descriptors after the first that has it as install name, and holds
    nothing for a name none of them has. *)
Theorem lookup_table_is_last_match (rest : list TextDylib) (lib : string) :
  lookup_table rest !! lib
  = last (List.filter (fun d => String.eqb (install_name d) lib) rest).
Proof. apply lookup_table_resolve. Qed.

(** X9. When none of the names the first descriptor re-exports is the
    install name of a later descriptor, the merge returns the first
    descriptor as it is: its exports are not extended, its list of
    re-exports is kept in order, and the other descriptors are ignored. *)
Theorem squash_nothing_to_inline (depth : nat) (main : TextDylib)
    (rest : list TextDylib) :
  (∀ lib d, lib ∈ reexported_libs main → d ∈ rest → install_name d ≠ lib) →
  squash (S depth) (main :: rest) = Returns main.
Proof.
  intros Hnone. unfold squash.
  rewrite walk_all_unresolved.
  - by destruct main.
  - intros lib Hlib. apply lookup_table_None. intros d Hd. by apply Hnone.
Qed.

(** X10. When every library the first descriptor re-exports and the
    table resolves re-exports nothing itself, the merge appends, for the
    names in their order and as often as they are listed, the exports and
    the weak exports of the resolved libraries, and keeps the names that
    are not resolved, in their order, as the re-exports of the result. *)
Theorem squash_one_level (depth : nat) (main : TextDylib) (rest : list TextDylib) :
  (∀ lib child, lib ∈ reexported_libs main →
                lookup_table rest !! lib = Some child →
                reexported_libs child = []) →
  squash (S (S depth)) (main :: rest)
  = Returns
      (mkTextDylib (install_name main)
         (unresolved (lookup_table rest) (reexported_libs main))
         (exports main
          ++ flat_map (exports_of (lookup_table rest)) (reexported_libs main))
         (weak_exports main
          ++ flat_map (weak_exports_of (lookup_table rest)) (reexported_libs main))).
Proof.
  intros Hleaf. unfold squash. by rewrite walk_leaves.
Qed.

(** X11. A name left in the re-exports of the merged descriptor is the
    install name of none of the descriptors after the first, and it is
    listed as a re-export by the first descriptor or by one of the
    others. *)
Theorem squash_reexported_libs_external (depth : nat) (main : TextDylib)
    (rest : list TextDylib) (merged : TextDylib) (lib : string) :
  squash depth (main :: rest) = Returns merged →
  lib ∈ reexported_libs merged →
  (∀ d, d ∈ rest → install_name d ≠ lib)
  ∧ (lib ∈ reexported_libs main ∨ ∃ d, d ∈ rest ∧ lib ∈ reexported_libs d).
Proof.
  unfold squash.
  destruct (handle_reexported_libs depth (lookup_table rest) (reexported_libs main)
              (mkWalk main [])) as [st|] eqn:Hwalk; [|discriminate].
  intros [= <-] Hlib. simpl in Hlib. split.
  - apply lookup_table_None.
    destruct (handle_reexported_libs_unresolved _ _ _ _ _ Hwalk lib Hlib)
      as [Hnil|Hnone]; [inversion Hnil | done].
  - destruct (handle_reexported_libs_from_table _ _ _ _ _ Hwalk) as (_ & _ & Hx).
    destruct (Hx lib Hlib) as [Hnil|[Hmain|(k & c & Hk & Hc)]].
    + inversion Hnil.
    + by left.
    + right. exists c. split; [|done]. by apply lookup_table_Some in Hk as [? _].
Qed.

(** X12. The merge invents no symbol: every export of the merged
    descriptor is an export of one of the descriptors of the file, and
    every weak export is a weak export of one of them. *)
Theorem squash_exports_origin (depth : nat) (tbds : list TextDylib)
    (merged : TextDylib) :
  squash depth tbds = Returns merged →
  (∀ s, s ∈ exports merged → ∃ d, d ∈ tbds ∧ s ∈ exports d)
  ∧ (∀ s, s ∈ weak_exports merged → ∃ d, d ∈ tbds ∧ s ∈ weak_exports d).
Proof.
  destruct tbds as [|main rest]; [discriminate|]. unfold squash.
  destruct (handle_reexported_libs depth (lookup_table rest) (reexported_libs main)
              (mkWalk main [])) as [st|] eqn:Hwalk; [|discriminate].
  intros [= <-]. simpl.
  destruct (handle_reexported_libs_from_table _ _ _ _ _ Hwalk) as (He & Hw & _).
  split; intros s Hs.
  - destruct (He s Hs) as [Hmain|(k & c & Hk & Hc)].
    + exists main. split; [apply list_elem_of_here | done].
    + exists c. split; [|done].
      apply list_elem_of_further. by apply lookup_table_Some in Hk as [? _].
  - destruct (Hw s Hs) as [Hmain|(k & c & Hk & Hc)].
    + exists main. split; [apply list_elem_of_here | done].
    + exists c. split; [|done].
      apply list_elem_of_further. by apply lookup_table_Some in Hk as [? _].
Qed.

(** X13. The merge fails to come back, whatever the depth allowed,
    exactly when the walk can reach, through names the table resolves, a
    descriptor of the table that lies on a cycle of such names. *)
Theorem squash_diverges_iff_reachable_cycle (main : TextDylib)
    (rest : list TextDylib) :
  (∀ depth, squash depth (main :: rest) = Diverges)
  ↔ ∃ lib d,
      resolved (lookup_table rest) (reexported_libs main) lib d
      ∧ clos_trans _ (table_edge (lookup_table rest)) d d.
Proof.
  split.
  - intros Hdiv. specialize (Hdiv (S (length rest))). unfold squash in Hdiv.
    destruct (handle_reexported_libs (S (length rest)) (lookup_table rest)
                (reexported_libs main) (mkWalk main [])) as [st|] eqn:Hwalk;
      [discriminate|].
    apply handle_reexported_libs_None in Hwalk as (p & Hlen & Hp).
    destruct (decide (NoDup p)) as [Hnd|Hdup].
    + assert (length p ≤ length rest); [|lia].
      apply submseteq_length, NoDup_submseteq; [done|].
      intros d Hd. destruct (walk_path_in_table _ _ _ _ Hp Hd) as [lib Hlk].
      by apply lookup_table_Some in Hlk as [? _].
    + destruct (walk_path_repeat _ _ _ Hp Hdup) as (d & Hd & Hcyc).
      destruct (walk_path_resolved _ _ _ _ Hp Hd) as [lib Hres].
      by exists lib, d.
  - intros (lib & d & Hres & Hcyc) depth. unfold squash.
    assert (handle_reexported_libs depth (lookup_table rest)
              (reexported_libs main) (mkWalk main []) = None) as ->; [|done].
    apply handle_reexported_libs_None.
    eapply resolved_paths; [exact Hres|]. intros k. by apply cycle_paths.
Qed.

(** ** File-level driver *)

Lemma extraction_loop (arch : string) (nodes : list YamlNode) (vec : list TextDylib) :
  fold_left
    (fun vec node =>
       match to_tbd node arch with
       | Some dylib => vec ++ [dylib]
       | None => vec
       end)
    nodes vec
  = vec ++ extracted arch nodes.
Proof.
  unfold extracted. revert vec.
  induction nodes as [|node nodes IH]; intros vec; simpl.
  - by rewrite app_nil_r.
  - rewrite IH. destruct (to_tbd node arch); simpl; [by rewrite <- app_assoc | done].
Qed.

Lemma extracted_nil (arch : string) (nodes : list YamlNode) :
  extracted arch nodes = []
  ↔ ∀ node, node ∈ nodes → YamlString arch ∉ get_vector node "targets".
Proof.
  unfold extracted. induction nodes as [|node nodes IH]; simpl.
  - split; [intros _ n Hn; inversion Hn | done].
  - destruct (to_tbd node arch) as [tbd|] eqn:Htbd; simpl.
    + split; [done|]. intros Hnone. exfalso.
      apply (Hnone node); [apply list_elem_of_here|].
      apply to_tbd_yields_helper. by eexists.
    + rewrite IH. split.
      * intros Hnone n Hn. apply elem_of_cons in Hn as [->|Hn]; [|by apply Hnone].
        intros Hin. apply to_tbd_yields_helper in Hin as [? ?]. congruence.
      * intros Hnone n Hn. by apply Hnone, list_elem_of_further.
Qed.

Lemma extracted_first (arch : string) (skipped later : list YamlNode)
    (doc : YamlNode) (tbd : TextDylib) :
  (∀ node, node ∈ skipped → YamlString arch ∉ get_vector node "targets") →
  to_tbd doc arch = Some tbd →
  extracted arch (skipped ++ doc :: later) = tbd :: extracted arch later.
Proof.
  intros Hskip Htbd. apply extracted_nil in Hskip.
  unfold extracted in *. rewrite omap_app, Hskip. simpl. by rewrite Htbd.
Qed.

Lemma parse_documents (parse_yaml : string → list YamlNode + YamlError)
    (depth : nat) (contents name arch : string) (nodes : list YamlNode) :
  parse_yaml contents = inl nodes → nodes ≠ [] →
  parse parse_yaml depth contents name arch = squash depth (extracted arch nodes).
Proof.
  intros Hyaml Hne. unfold parse. rewrite Hyaml.
  destruct nodes as [|node nodes]; [done|]. by rewrite extraction_loop.
Qed.

Lemma count_past_end (contents : string) (n : nat) (value : ascii) :
  count contents n value = None ↔ String.length contents < n.
Proof.
  revert contents. induction n as [|n IH]; intros contents.
  - destruct contents; simpl; (split; [discriminate | intros; lia]).
  - destruct contents as [|c rest]; simpl.
    + split; [intros; lia | done].
    + rewrite fmap_None, IH. lia.
Qed.

Section DriverFurther.

Variable parse_yaml : string → list YamlNode + YamlError.

(** X14. The primary library of the result is the first document that
    is for the architecture, not the first document of the file: the
    documents before it that are for other architectures are passed
    over.  The result has its install name, and its exports come first. *)
Theorem parse_primary_is_first_for_arch (depth : nat)
    (contents name arch : string) (skipped later : list YamlNode)
    (doc : YamlNode) (merged : TextDylib) :
  parse_yaml contents = inl (skipped ++ doc :: later) →
  (∀ node, node ∈ skipped → YamlString arch ∉ get_vector node "targets") →
  YamlString arch ∈ get_vector doc "targets" →
  parse parse_yaml depth contents name arch = Returns merged →
  install_name merged = default "" (get_string doc "install-name")
  ∧ members_exports arch (get_vector doc "exports" ++ get_vector doc "reexports")
    `prefix_of` exports merged.
Proof.
  intros Hyaml Hskip Harch.
  rewrite (parse_documents _ _ _ _ _ _ Hyaml) by (by destruct skipped).
  apply contains_true in Harch.
  rewrite (extracted_first _ _ _ _ _ Hskip (to_tbd_Some _ _ Harch)).
  unfold squash.
  destruct (handle_reexported_libs _ _ _ _) as [st|] eqn:Hwalk; [|discriminate].
  intros [= <-].
  by apply handle_reexported_libs_extends in Hwalk as (Hn & _ & He & _ & _).
Qed.

(** X15. When exactly one document of the file is for the architecture,
    the driver returns the descriptor extracted from it, unchanged: its
    re-exported libraries all stay external. *)
Theorem parse_single_descriptor (depth : nat) (contents name arch : string)
    (skipped later : list YamlNode) (doc : YamlNode) (tbd : TextDylib) :
  parse_yaml contents = inl (skipped ++ doc :: later) →
  (∀ node, node ∈ skipped ++ later →
           YamlString arch ∉ get_vector node "targets") →
  to_tbd doc arch = Some tbd →
  parse parse_yaml (S depth) contents name arch = Returns tbd.
Proof.
  intros Hyaml Hothers Htbd.
  rewrite (parse_documents _ _ _ _ _ _ Hyaml) by (by destruct skipped).
  rewrite (extracted_first _ _ _ _ tbd) by
    (done || intros n Hn; apply Hothers, elem_of_app; by left).
  rewrite (proj2 (extracted_nil arch later)) by
    (intros n Hn; apply Hothers, elem_of_app; by right).
  unfold squash. rewrite walk_all_unresolved; [by destruct tbd | done].
Qed.

(** X16. The driver returns a descriptor only for a file that parsed
    into documents of which at least one is for the architecture. *)
Theorem parse_returns_only_for_arch (depth : nat) (contents name arch : string)
    (merged : TextDylib) :
  parse parse_yaml depth contents name arch = Returns merged →
  ∃ nodes doc,
    parse_yaml contents = inl nodes ∧ doc ∈ nodes
    ∧ YamlString arch ∈ get_vector doc "targets".
Proof.
  unfold parse. destruct (parse_yaml contents) as [nodes|err].
  - destruct nodes as [|node nodes]; [discriminate|].
    rewrite extraction_loop, app_nil_l.
    destruct (extracted arch (node :: nodes)) as [|main rest] eqn:Hex;
      [discriminate|].
    intros _. exists (node :: nodes).
    assert (main ∈ extracted arch (node :: nodes)) as Hmain
      by (rewrite Hex; apply list_elem_of_here).
    apply list_elem_of_omap in Hmain as (doc & Hdoc & Htbd).
    exists doc. split; [done|]. split; [done|].
    apply to_tbd_yields_helper. by eexists.
  - by destruct (count contents (pos err) newline).
Qed.

(** X17. The driver makes an access out of bounds in exactly two
    cases: the parser reports an error at an offset past the end of the
    contents, or the file has documents and none is for the architecture. *)
Theorem parse_out_of_bounds_iff (depth : nat) (contents name arch : string) :
  parse parse_yaml depth contents name arch = Undefined
  ↔ (∃ err, parse_yaml contents = inr err ∧ String.length contents < pos err)
    ∨ (∃ nodes, parse_yaml contents = inl nodes ∧ nodes ≠ []
                ∧ ∀ node, node ∈ nodes →
                          YamlString arch ∉ get_vector node "targets").
Proof.
  unfold parse. destruct (parse_yaml contents) as [nodes|err].
  - destruct nodes as [|node nodes].
    + split; [discriminate|]. intros [(err & ? & _)|(nodes & Hn & Hne & _)];
        [discriminate | congruence].
    + rewrite extraction_loop, app_nil_l. split.
      * intros Hsquash. right. exists (node :: nodes).
        split; [done|]. split; [done|]. apply extracted_nil.
        unfold squash in Hsquash.
        destruct (extracted arch (node :: nodes)) as [|main rest]; [done|].
        by destruct (handle_reexported_libs _ _ _ _).
      * intros [(err & ? & _)|(nodes' & [= <-] & _ & Hnone)]; [discriminate|].
        apply extracted_nil in Hnone. by rewrite Hnone.
  - destruct (count contents (pos err) newline) as [lineno|] eqn:Hcount.
    + split; [discriminate|].
      intros [(err' & [= <-] & Hpos)|(nodes & ? & _)]; [|discriminate].
      apply (count_past_end _ _ newline) in Hpos. congruence.
    + split; [|done]. intros _. left. exists err. split; [done|].
      by apply count_past_end in Hcount.
Qed.

End DriverFurther.

(** ** Sample runs of the further properties *)

Lemma to_tbd_descriptor_witness :
  to_tbd sample_document "arm64-macos" = Some sample_descriptor.
Proof.
  rewrite (to_tbd_descriptor sample_document "arm64-macos").
  - vm_compute; reflexivity.
  - apply contains_true; vm_compute; reflexivity.
Defined.

Lemma to_tbd_ignores_other_keys_witness :
  to_tbd (YamlMap (<["tbd-version" := YamlString "4"]> (list_to_map small_entries)))
    "arm64-macos"
  = to_tbd (YamlMap (list_to_map small_entries)) "arm64-macos".
Proof.
  apply to_tbd_ignores_other_keys.
  intros Hin. apply list_elem_of_In in Hin. vm_compute in Hin.
  repeat (destruct Hin as [Hin|Hin]; [discriminate|]). exact Hin.
Defined.

Lemma to_tbd_exports_elem_witness :
  "_OBJC_IVAR_$_Foo.x" ∈ exports sample_descriptor.
Proof.
  apply (to_tbd_exports_elem sample_document "arm64-macos" sample_descriptor).
  - vm_compute; reflexivity.
  - exists sample_member. split; [|split].
    + left. vm_compute. apply list_elem_of_here.
    + apply contains_true; vm_compute; reflexivity.
    + right; right; right. exists "Foo.x". split; [|reflexivity].
      vm_compute. apply list_elem_of_here.
Defined.

Lemma to_tbd_weak_and_libraries_elem_witness :
  "_weak" ∈ weak_exports sample_descriptor.
Proof.
  apply (proj1 (to_tbd_weak_and_libraries_elem sample_document "arm64-macos"
                  sample_descriptor "_weak" ltac:(vm_compute; reflexivity))).
  exists sample_member. split; [|split].
  - left. vm_compute. apply list_elem_of_here.
  - apply contains_true; vm_compute; reflexivity.
  - vm_compute. apply list_elem_of_here.
Defined.

Lemma to_tbd_no_applicable_member_witness :
  ∃ tbd,
    to_tbd foreign_members_document "arm64-macos" = Some tbd
    ∧ exports tbd = [] ∧ weak_exports tbd = [].
Proof.
  apply to_tbd_no_applicable_member.
  - apply contains_true; vm_compute; reflexivity.
  - intros mem Hmem. vm_compute in Hmem.
    apply list_elem_of_singleton in Hmem as ->.
    apply contains_false; vm_compute; reflexivity.
Defined.

Lemma squash_nothing_to_inline_witness :
  squash 1 [lib_m; lib_c] = Returns lib_m.
Proof.
  apply squash_nothing_to_inline.
  intros lib d Hlib Hd.
  apply list_elem_of_singleton in Hlib as ->.
  apply list_elem_of_singleton in Hd as ->. discriminate.
Defined.

Lemma squash_one_level_witness :
  squash 2 [lib_b; lib_c] = Returns (mkTextDylib "B" [] ["_b"; "_c"] ["_wb"]).
Proof.
  rewrite (squash_one_level 0 lib_b [lib_c]).
  - vm_compute; reflexivity.
  - intros lib child Hlib Hlk.
    apply list_elem_of_singleton in Hlib as ->.
    vm_compute in Hlk. by injection Hlk as <-.
Defined.

Lemma squash_reexported_libs_external_witness :
  (∀ d, d ∈ [lib_b; lib_c] → install_name d ≠ "/usr/lib/libX.dylib")
  ∧ ("/usr/lib/libX.dylib" ∈ reexported_libs lib_a
     ∨ ∃ d, d ∈ [lib_b; lib_c] ∧ "/usr/lib/libX.dylib" ∈ reexported_libs d).
Proof.
  apply (squash_reexported_libs_external 3 lib_a [lib_b; lib_c]
           (mkTextDylib "A" ["/usr/lib/libX.dylib"] ["_a"; "_b"; "_c"] ["_wb"])).
  - vm_compute; reflexivity.
  - apply list_elem_of_here.
Defined.

Lemma squash_exports_origin_witness :
  ∃ d, d ∈ [lib_a; lib_b; lib_c] ∧ "_c" ∈ exports d.
Proof.
  apply (proj1 (squash_exports_origin 3 [lib_a; lib_b; lib_c]
                  (mkTextDylib "A" ["/usr/lib/libX.dylib"] ["_a"; "_b"; "_c"] ["_wb"])
                  ltac:(vm_compute; reflexivity))).
  simpl. repeat (apply list_elem_of_here || apply list_elem_of_further).
Defined.

Lemma parse_primary_is_first_for_arch_witness :
  install_name sample_descriptor
  = default "" (get_string sample_document "install-name")
  ∧ members_exports "arm64-macos"
      (get_vector sample_document "exports"
       ++ get_vector sample_document "reexports")
    `prefix_of` exports sample_descriptor.
Proof.
  apply (parse_primary_is_first_for_arch
           (yaml_documents [x86_document; sample_document]) 1
           "" "libfoo.tbd" "arm64-macos" [x86_document] []
           sample_document sample_descriptor).
  - reflexivity.
  - intros node Hnode. apply list_elem_of_singleton in Hnode as ->.
    apply contains_false; vm_compute; reflexivity.
  - apply contains_true; vm_compute; reflexivity.
  - vm_compute; reflexivity.
Defined.

Lemma parse_single_descriptor_witness :
  parse (yaml_documents [x86_document; sample_document]) 1 "" "libfoo.tbd"
    "arm64-macos"
  = Returns sample_descriptor.
Proof.
  apply (parse_single_descriptor (yaml_documents [x86_document; sample_document])
           0 "" "libfoo.tbd" "arm64-macos" [x86_document] [] sample_document).
  - reflexivity.
  - intros node Hnode. rewrite app_nil_r in Hnode.
    apply list_elem_of_singleton in Hnode as ->.
    apply contains_false; vm_compute; reflexivity.
  - vm_compute; reflexivity.
Defined.

Lemma parse_returns_only_for_arch_witness :
  ∃ nodes doc,
    yaml_documents [x86_document; sample_document] "" = inl nodes
    ∧ doc ∈ nodes ∧ YamlString "arm64-macos" ∈ get_vector doc "targets".
Proof.
  apply (parse_returns_only_for_arch
           (yaml_documents [x86_document; sample_document]) 1 "" "libfoo.tbd"
           "arm64-macos" sample_descriptor).
  vm_compute; reflexivity.
Defined.

(** * The merged re-exports, and the order of the lookup table *)

(** ** What the walk has collected when it comes back *)

Lemma collected_nil (map : gmap string TextDylib) (st : walk) :
  collected map st [] = st.
Proof.
  destruct st as [[n r e w] x]. unfold collected, unresolved; simpl.
  by rewrite !app_nil_r.
Qed.

Lemma collected_app (map : gmap string TextDylib) (st : walk)
    (names1 names2 : list string) :
  collected map (collected map st names1) names2
  = collected map st (names1 ++ names2).
Proof.
  unfold collected, unresolved; simpl.
  by rewrite List.filter_app, !flat_map_app, <- !app_assoc.
Qed.

Lemma collected_resolved (map : gmap string TextDylib) (st : walk)
    (lib : string) (child : TextDylib) :
  map !! lib = Some child → collected map st [lib] = absorb st child.
Proof.
  intros Hlk. unfold collected, unresolved, exports_of, weak_exports_of, absorb.
  simpl. rewrite Hlk, bool_decide_eq_false_2 by done.
  by rewrite !app_nil_r.
Qed.

Lemma collected_unresolved (map : gmap string TextDylib) (st : walk)
    (lib : string) :
  map !! lib = None → collected map st [lib] = push_external st lib.
Proof.
  intros Hlk. unfold collected, unresolved, exports_of, weak_exports_of,
    push_external.
  simpl. rewrite Hlk, bool_decide_eq_true_2 by done.
  destruct st as [[n r e w] x]; simpl. by rewrite !app_nil_r.
Qed.

Lemma names_of_app (visit : string → option (list string))
    (libs1 libs2 : list string) :
  names_of visit (libs1 ++ libs2)
  = (names_of visit libs1 ≫= fun seen =>
       names_of visit libs2 ≫= fun later => Some (seen ++ later)).
Proof.
  induction libs1 as [|lib libs1 IH]; simpl.
  - by destruct (names_of visit libs2).
  - rewrite IH. destruct (visit lib) as [here|]; simpl; [|done].
    destruct (names_of visit libs1) as [seen|]; simpl; [|done].
    destruct (names_of visit libs2) as [later|]; simpl; [|done].
    by rewrite app_assoc.
Qed.

Lemma walk_order_unresolved (depth : nat) (map : gmap string TextDylib)
    (before after : list string) (lib : string) :
  map !! lib = None →
  walk_order (S depth) map (before ++ lib :: after)
  = (walk_order (S depth) map before ≫= fun seen =>
       walk_order (S depth) map after ≫= fun later =>
         Some (seen ++ lib :: later)).
Proof.
  intros Hnone. simpl. rewrite names_of_app. simpl. rewrite Hnone.
  destruct (names_of _ before) as [seen|]; simpl; [|done].
  by destruct (names_of _ after).
Qed.

(** The walk that comes back has met the names [walk_order] gives, and
    its state is the one collected over them. *)
Lemma handle_reexported_libs_collected (depth : nat) (map : gmap string TextDylib)
    (libs : list string) (st st' : walk) :
  handle_reexported_libs depth map libs st = Some st' →
  ∃ names, walk_order depth map libs = Some names ∧ st' = collected map st names.
Proof.
  revert libs st st'. induction depth as [|depth IHd]; intros libs; [discriminate|].
  induction libs as [|lib libs IHl]; intros st st'.
  - rewrite handle_reexported_libs_nil. intros [= <-].
    exists []. by rewrite collected_nil.
  - rewrite handle_reexported_libs_cons.
    destruct (map !! lib) as [child|] eqn:Hlk.
    + destruct (handle_reexported_libs depth map (reexported_libs child)
                  (absorb st child)) as [st1|] eqn:Hchild; [|discriminate].
      simpl. intros Hrest.
      destruct (IHd _ _ _ Hchild) as (below & Hbelow & ->).
      destruct (IHl _ _ Hrest) as (later & Hlater & ->).
      exists ((lib :: below) ++ later). split.
      * simpl in Hlater |- *. by rewrite Hlk, Hbelow, Hlater.
      * rewrite <- (collected_resolved map st lib child Hlk), !collected_app.
        done.
    + intros Hrest. destruct (IHl _ _ Hrest) as (later & Hlater & ->).
      exists ([lib] ++ later). split.
      * simpl in Hlater |- *. by rewrite Hlk, Hlater.
      * by rewrite <- (collected_unresolved map st lib Hlk), collected_app.
Qed.

(** C4. When the merge returns, let [names] be the names the walk met,
    in the order it met them.  The re-exports of the result are exactly
    the names among them that the lookup table does not hold, unchanged
    and in that order; the exports and weak exports of the result are
    those of the first descriptor followed by what the table holds for
    each name met, which is nothing for a name it does not hold.  Such a
    name is not entered: in any list walked, the names met are those met
    before it, the name itself, and those met after it. *)
Theorem unresolved_libraries_recorded (depth : nat) (main : TextDylib)
    (rest : list TextDylib) (merged : TextDylib) :
  squash depth (main :: rest) = Returns merged →
  ∃ names,
    walk_order depth (lookup_table rest) (reexported_libs main) = Some names
    ∧ reexported_libs merged = unresolved (lookup_table rest) names
    ∧ exports merged
      = exports main ++ flat_map (exports_of (lookup_table rest)) names
    ∧ weak_exports merged
      = weak_exports main ++ flat_map (weak_exports_of (lookup_table rest)) names
    ∧ ∀ lib,
        lookup_table rest !! lib = None →
        exports_of (lookup_table rest) lib = []
        ∧ weak_exports_of (lookup_table rest) lib = []
        ∧ (lib ∈ names → lib ∈ reexported_libs merged)
        ∧ ∀ d before after,
            walk_order (S d) (lookup_table rest) (before ++ lib :: after)
            = (walk_order (S d) (lookup_table rest) before ≫= fun seen =>
                 walk_order (S d) (lookup_table rest) after ≫= fun later =>
                   Some (seen ++ lib :: later)).
Proof.
  unfold squash.
  destruct (handle_reexported_libs depth (lookup_table rest) (reexported_libs main)
              (mkWalk main [])) as [st|] eqn:Hwalk; [|discriminate].
  intros [= <-].
  destruct (handle_reexported_libs_collected _ _ _ _ _ Hwalk) as (names & Hnames & ->).
  exists names. simpl. do 4 (split; [done|]).
  intros lib Hnone. split; [|split; [|split]].
  - unfold exports_of. by rewrite Hnone.
  - unfold weak_exports_of. by rewrite Hnone.
  - intros Hin. unfold unresolved.
    apply list_elem_of_In, filter_In. split; [by apply list_elem_of_In|].
    by apply bool_decide_eq_true_2.
  - intros d before after. by apply walk_order_unresolved.
Qed.

Lemma unresolved_libraries_recorded_witness :
  ∃ names,
    walk_order 2 (lookup_table [lib_k]) (reexported_libs lib_t) = Some names
    ∧ ["/usr/lib/libdeep.dylib"; "/usr/lib/libext.dylib"]
      = unresolved (lookup_table [lib_k]) names
    ∧ ["_t"; "_k"] = exports lib_t ++ flat_map (exports_of (lookup_table [lib_k])) names.
Proof.
  destruct (unresolved_libraries_recorded 2 lib_t [lib_k]
              (mkTextDylib "T" ["/usr/lib/libdeep.dylib"; "/usr/lib/libext.dylib"]
                 ["_t"; "_k"] ["_wk"]))
    as (names & Horder & Hlibs & Hexports & _).
  - vm_compute; reflexivity.
  - exists names. split; [exact Horder|]. split; [exact Hlibs | exact Hexports].
Defined.

(** ** The lookup table in any order *)

Lemma find_None (tbl : list (string * TextDylib)) (key : string) :
  Unordered.find tbl key = None ↔ key ∉ tbl.*1.
Proof.
  induction tbl as [|[k v] tbl IH]; simpl.
  - split; [intros _ Hin; inversion Hin | done].
  - rewrite not_elem_of_cons. destruct (String.eqb_spec k key) as [->|Hne].
    + split; [discriminate | by intros [? _]].
    + rewrite IH. split; [by intros ? | by intros [_ ?]].
Qed.

Lemma find_Some (tbl : list (string * TextDylib)) (key : string)
    (value : TextDylib) :
  NoDup tbl.*1 →
  Unordered.find tbl key = Some value ↔ (key, value) ∈ tbl.
Proof.
  induction tbl as [|[k v] tbl IH]; simpl; intros Hnd.
  - split; [discriminate | intros Hin; inversion Hin].
  - apply NoDup_cons in Hnd as [Hk Hnd]. rewrite elem_of_cons.
    destruct (String.eqb_spec k key) as [->|Hne].
    + split; [intros [= ->]; by left|].
      intros [[= ->]|Hin]; [done|]. destruct Hk.
      apply list_elem_of_fmap. by exists (key, value).
    + rewrite (IH Hnd). split; [by right|]. intros [[= ? ?]|Hin]; [congruence | done].
Qed.

Lemma find_agrees (tbl : list (string * TextDylib)) (m : gmap string TextDylib)
    (key : string) :
  agrees tbl m → Unordered.find tbl key = m !! key.
Proof.
  intros [Hnd Hin]. destruct (m !! key) as [v|] eqn:Hm.
  - by apply find_Some, Hin.
  - destruct (Unordered.find tbl key) as [v|] eqn:Hfind; [|done].
    apply find_Some, Hin in Hfind; [congruence | done].
Qed.

Lemma overwrite_keys (tbl : list (string * TextDylib)) (key : string)
    (value : TextDylib) :
  (Unordered.overwrite tbl key value).*1 = tbl.*1.
Proof.
  induction tbl as [|[k v] tbl IH]; simpl; [done|].
  destruct (String.eqb_spec k key) as [->|Hne]; simpl; [done | by f_equal].
Qed.

Lemma elem_of_overwrite (tbl : list (string * TextDylib)) (key : string)
    (value : TextDylib) (k : string) (v : TextDylib) :
  NoDup tbl.*1 → key ∈ tbl.*1 →
  (k, v) ∈ Unordered.overwrite tbl key value
  ↔ (k = key ∧ v = value) ∨ (k ≠ key ∧ (k, v) ∈ tbl).
Proof.
  induction tbl as [|[k0 v0] tbl IH]; simpl; intros Hnd Hkey; [inversion Hkey|].
  apply NoDup_cons in Hnd as [Hk0 Hnd].
  destruct (String.eqb_spec k0 key) as [->|Hne].
  - rewrite !elem_of_cons. split.
    + intros [[= -> ->]|Hin]; [by left|]. right. split; [|by right].
      intros ->. destruct Hk0. apply list_elem_of_fmap. by exists (key, v).
    + intros [[-> ->]|[Hne [[= ? ?]|Hin]]]; [by left | done | by right].
  - apply elem_of_cons in Hkey as [->|Hkey]; [done|].
    rewrite !elem_of_cons, (IH Hnd Hkey). split.
    + intros [[= -> ->]|[[-> ->]|[Hk Hin]]].
      * right. split; [done | by left].
      * by left.
      * right. split; [done | by right].
    + intros [[-> ->]|[Hk [[= -> ->]|Hin]]].
      * right. by left.
      * by left.
      * right. right. by split.
Qed.

Section AnyOrder.

Variable arrange : list (string * TextDylib) → list (string * TextDylib).
Hypothesis arrange_permutes : ∀ tbl, arrange tbl ≡ₚ tbl.

Lemma assign_agrees (tbl : list (string * TextDylib)) (m : gmap string TextDylib)
    (key : string) (value : TextDylib) :
  agrees tbl m → agrees (Unordered.assign arrange tbl key value) (<[key := value]> m).
Proof.
  intros Hagree. pose proof (find_agrees _ _ key Hagree) as Hfind.
  destruct Hagree as [Hnd Hin]. unfold Unordered.assign.
  destruct (Unordered.find tbl key) as [old|] eqn:Hold.
  - split; [by rewrite overwrite_keys|]. intros k v.
    rewrite elem_of_overwrite, lookup_insert_Some, Hin.
    + split; intros [[? ?]|[? ?]]; subst; auto.
    + done.
    + apply find_Some, list_elem_of_fmap_2 with (f := fst) in Hold; done.
  - pose proof (arrange_permutes ((key, value) :: tbl)) as Hperm. split.
    + rewrite Hperm. simpl. apply NoDup_cons. split; [by apply find_None | done].
    + intros k v. rewrite Hperm, elem_of_cons, lookup_insert_Some, Hin.
      split.
      * intros [[= -> ->]|Hm]; [by left|]. right. split; [|done].
        intros ->. congruence.
      * intros [[-> ->]|[_ Hm]]; [by left | by right].
Qed.

Lemma lookup_table_agrees (rest : list TextDylib) :
  agrees (Unordered.lookup_table arrange rest) (lookup_table rest).
Proof.
  unfold Unordered.lookup_table, lookup_table.
  assert (agrees [] (∅ : gmap string TextDylib)) as Hempty.
  { split; [constructor|]. intros k v. rewrite lookup_empty.
    split; [intros Hin; inversion Hin | discriminate]. }
  revert Hempty. generalize (∅ : gmap string TextDylib).
  generalize ([] : list (string * TextDylib)).
  induction rest as [|tbd rest IH]; intros tbl m Hagree; [done|].
  simpl. by apply IH, assign_agrees.
Qed.

Lemma handle_reexported_libs_any_order (depth : nat)
    (tbl : list (string * TextDylib)) (m : gmap string TextDylib)
    (libs : list string) (st : walk) :
  agrees tbl m →
  Unordered.handle_reexported_libs depth tbl libs st
  = handle_reexported_libs depth m libs st.
Proof.
  intros Hagree. revert libs st.
  induction depth as [|depth IHd]; intros libs st; [done|]. simpl.
  revert st. induction libs as [|lib libs IHl]; intros st; [done|]. simpl.
  rewrite (find_agrees _ _ lib Hagree).
  destruct (m !! lib) as [child|]; [|apply IHl].
  rewrite IHd.
  destruct (handle_reexported_libs depth m (reexported_libs child) (absorb st child));
    [apply IHl | done].
Qed.

Lemma squash_any_order (depth : nat) (tbds : list TextDylib) :
  Unordered.squash arrange depth tbds = squash depth tbds.
Proof.
  destruct tbds as [|main rest]; [done|]. unfold Unordered.squash, squash.
  by rewrite (handle_reexported_libs_any_order _ _ (lookup_table rest))
    by apply lookup_table_agrees.
Qed.

Lemma parse_any_order (parse_yaml : string → list YamlNode + YamlError)
    (depth : nat) (contents name arch : string) :
  Unordered.parse arrange parse_yaml depth contents name arch
  = parse parse_yaml depth contents name arch.
Proof.
  unfold Unordered.parse, parse.
  destruct (parse_yaml contents) as [nodes|err]; [|done].
  destruct nodes as [|node nodes]; [done|]. apply squash_any_order.
Qed.

End AnyOrder.

(** A run that comes to an end does so in the same way whatever depth
    of recursion it was allowed. *)
Lemma parse_any_depth (parse_yaml : string → list YamlNode + YamlError)
    (depth1 depth2 : nat) (contents name arch : string) :
  parse parse_yaml depth1 contents name arch ≠ Diverges →
  parse parse_yaml depth2 contents name arch ≠ Diverges →
  parse parse_yaml depth1 contents name arch
  = parse parse_yaml depth2 contents name arch.
Proof.
  unfold parse.
  destruct (parse_yaml contents) as [nodes|err]; [|done].
  destruct nodes as [|node nodes]; [done|].
  unfold squash.
  destruct (fold_left _ (node :: nodes) []) as [|main rest]; [done|].
  simpl.
  destruct (handle_reexported_libs depth1 _ _ _) as [st1|] eqn:Hw1; [|done].
  destruct (handle_reexported_libs depth2 _ _ _) as [st2|] eqn:Hw2; [|done].
  intros _ _.
  apply (handle_reexported_libs_deeper depth1 (depth1 `max` depth2)) in Hw1; [|lia].
  apply (handle_reexported_libs_deeper depth2 (depth1 `max` depth2)) in Hw2; [|lia].
  congruence.
Qed.

(** C9. The lookup table of the merge is an unordered container: the
    order in which it keeps its elements is not fixed, and may differ
    from one run to the next.  Two runs of the driver on the same contents
    and architecture, each with its own order of the table after every
    insertion and each allowed its own depth of recursion, that both come
    to an end, end the same way: with the same descriptor, field by field
    and in the same order, or with the same diagnostic.  The one choice
    the input leaves to the table is settled the same way in every order:
    under an install name that several documents carry, the table holds
    the last of them. *)
Theorem parse_independent_of_table_order
    (parse_yaml : string → list YamlNode + YamlError)
    (arrange1 arrange2 : list (string * TextDylib) → list (string * TextDylib))
    (depth1 depth2 : nat) (contents name arch : string) :
  (∀ tbl, arrange1 tbl ≡ₚ tbl) →
  (∀ tbl, arrange2 tbl ≡ₚ tbl) →
  Unordered.parse arrange1 parse_yaml depth1 contents name arch ≠ Diverges →
  Unordered.parse arrange2 parse_yaml depth2 contents name arch ≠ Diverges →
  Unordered.parse arrange1 parse_yaml depth1 contents name arch
  = Unordered.parse arrange2 parse_yaml depth2 contents name arch
  ∧ ∀ rest lib,
      Unordered.find (Unordered.lookup_table arrange1 rest) lib
      = last (List.filter (fun d => String.eqb (install_name d) lib) rest).
Proof.
  intros Hperm1 Hperm2. rewrite !parse_any_order by done.
  intros Hend1 Hend2. split; [by apply parse_any_depth|].
  intros rest lib.
  rewrite (find_agrees _ (lookup_table rest)) by (by apply lookup_table_agrees).
  apply lookup_table_resolve.
Qed.

Lemma parse_independent_of_table_order_witness :
  Unordered.parse id (yaml_documents umbrella_file) 2 "" "libmain.tbd" "arm64-macos"
  = Unordered.parse reverse (yaml_documents umbrella_file) 3 "" "libmain.tbd"
      "arm64-macos".
Proof.
  apply (parse_independent_of_table_order (yaml_documents umbrella_file)
           id reverse 2 3 "" "libmain.tbd" "arm64-macos").
  - reflexivity.
  - intros tbl. apply reverse_Permutation.
  - vm_compute; discriminate.
  - vm_compute; discriminate.
Defined.
